(** * QuickMigrate: the dependency layering and the transactional
      application of revisions (dbmigrator.py, dbmigrator_cli.py)

    The development embeds [DBRevision] and the methods of [DBMigrator]
    that sequence and record revisions, and the walk over the layers
    of [DBMigratorCLI].  Python sets of names are
    [gset string], the dictionary returned by [load_revisions] is a
    [gmap string DBRevision], exceptions are values of [exn] carried by
    [result], and the two [while True] loops are run on a fuel counter
    ([None] means the loop was still running when the fuel ran out). *)

From Stdlib Require Import Ascii.
From stdpp Require Import gmap strings list fin_maps fin_sets relations.

(** ** Exceptions and results *)

(** The text of the two [Exception(f"...")] raised by the migrator: the
    formatted values are kept, the surrounding words are not. *)
Inductive message :=
  | could_not_resolve (keys : gset string)
  | dependencies_not_met (name : string) (deps : gset string).

Inductive exn :=
  | NoSuchTableError
  | OperationalError (detail : string)
  | ProgrammingError (detail : string)
  | IntegrityError (key : string)
  | InvalidRequestError (detail : string)
  | OSError (detail : string)
  | KeyError (key : string)
  | Exception (msg : message).

Inductive result (A : Type) :=
  | Ok (a : A)
  | Raise (e : exn).
Arguments Ok {A} a.
Arguments Raise {A} e.

Global Instance result_ret : MRet result := λ A a, Ok a.
Global Instance result_bind : MBind result := λ A B k r,
  match r with
  | Ok a => k a
  | Raise e => Raise e
  end.

(** ** DBRevision *)

Record DBRevision := mkDBRevision {
  revision_name : string;
  dependencies : gset string;
  sql_text : option string;
  active : bool;
  description : option string
}.

(** [DBRevision.yaml_template] *)
Definition yaml_template (name : string) (deps : gset string) : DBRevision :=
  mkDBRevision name deps None true None.

(** ** The layer resolver *)

(** [for rev in self.applied_revisions: revisions.pop(rev, None)] *)
Definition pop_applied (revisions : gmap string DBRevision)
    (applied : gset string) : gmap string DBRevision :=
  set_fold (λ rev revs, delete rev revs) revisions applied.

(** The test of the inner [for] of [build_revision_layers]. *)
Definition can_apply (flat : gset string) (rev_name : string)
    (rev : DBRevision) : Prop :=
  dependencies rev ⊆ flat ∧ rev_name ∉ flat.

Global Instance can_apply_dec flat rev_name rev :
  Decision (can_apply flat rev_name rev).
Proof. unfold can_apply. apply _. Defined.

(** One turn of [for rev_name in revision_names]: the pair is
    [(new_layer, revisions)].  [revisions[rev_name]] cannot miss, since
    the names are the keys of [revisions] and each is popped at most at
    its own turn; the branch is kept so that the function is total. *)
Definition scan_step (flat : gset string)
    (st : gset string * gmap string DBRevision) (rev_name : string)
    : gset string * gmap string DBRevision :=
  match st.2 !! rev_name with
  | Some rev =>
      if decide (can_apply flat rev_name rev)
      then ({[rev_name]} ∪ st.1, delete rev_name st.2)
      else st
  | None => st
  end.

(** One pass over [list(revisions.keys())]. *)
Definition scan_revisions (flat : gset string)
    (revisions : gmap string DBRevision)
    : gset string * gmap string DBRevision :=
  foldl (scan_step flat) (∅, revisions) ((map_to_list revisions).*1).

(** The [while True] loop of [build_revision_layers]. *)
Fixpoint layer_loop (fuel : nat) (revisions : gmap string DBRevision)
    (flat : gset string) (revision_layers : list (gset string))
    : option (gmap string DBRevision * list (gset string)) :=
  match fuel with
  | O => None
  | S fuel' =>
      let '(new_layer, revisions) := scan_revisions flat revisions in
      if decide (size new_layer = 0) then Some (revisions, revision_layers)
      else
        let flat := flat ∪ new_layer in
        let revision_layers := revision_layers ++ [new_layer] in
        if decide (size (dom revisions) = 0)
        then Some (revisions, revision_layers)
        else layer_loop fuel' revisions flat revision_layers
  end.

(** ** The dependency chain of one revision *)

(** [for rev in revision_layers[-1]: new_layer = new_layer.union(...)],
    with the [KeyError] of [revisions[rev]]. *)
Definition union_step (revisions : gmap string DBRevision)
    (acc : result (gset string)) (rev : string) : result (gset string) :=
  new_layer ← acc;
  match revisions !! rev with
  | Some r => Ok (new_layer ∪ dependencies r)
  | None => Raise (KeyError rev)
  end.

Definition dependency_union (revisions : gmap string DBRevision)
    (layer : gset string) : result (gset string) :=
  foldl (union_step revisions) (Ok ∅) (elements layer).

(** The [while True] loop of [get_revision_dependencies].  The list is
    never empty, so [revision_layers[-1]] is its last element. *)
Fixpoint chain_loop (fuel : nat) (revisions : gmap string DBRevision)
    (revision_layers : list (gset string))
    : option (result (list (gset string))) :=
  match fuel with
  | O => None
  | S fuel' =>
      match dependency_union revisions (default ∅ (last revision_layers)) with
      | Raise e => Some (Raise e)
      | Ok new_layer =>
          if decide (size new_layer = 0) then Some (Ok revision_layers)
          else chain_loop fuel' revisions (revision_layers ++ [new_layer])
      end
  end.

(** ** The database and the migrator

    What SQLAlchemy and the database do is outside the repository; the
    model keeps what the migrator can observe of it.  The contents a
    transaction works on are the user's tables, of any type [Tables],
    and the tracking table: [None] while it does not exist, else its
    rows, a set since the one column is the primary key.  Every call to
    the database is recorded in a journal, which no rollback erases. *)

Inductive db_event :=
  | Connect
  | Reflect
  | Select
  | Begin
  | Execute (sql : option string)
  | Insert (key : string)
  | Commit
  | Rollback.

(** [Path(f"{revision_name}.yaml")] names a file of the revisions
    directory itself when the name holds no separator; with one, the
    path leads into another directory, which may not exist or may lie
    outside the revisions directory. *)
Definition is_file_name (name : string) : bool :=
  forallb (λ c, negb (Ascii.eqb c "/"%char)) (String.list_ascii_of_string name).

Section Migrator.

Variable Tables : Type.

Record Contents := mkContents {
  user_tables : Tables;
  tracking : option (gset string)
}.

(** [connect_fault], [select_fault] and [commit_fault] stand for the
    failures that do not depend on the migrator: an unreachable server,
    a missing permission, a connection lost before the commit. *)
Record Database := mkDatabase {
  connect_fault : option exn;
  select_fault : option exn;
  commit_fault : option exn;
  committed : Contents;
  journal : list db_event
}.

(** A revision's script is opaque: executing it turns the contents seen
    by the transaction into new ones and may fail part-way, leaving the
    effects of the statements already run. *)
Variable execute_script : option string → Contents → Contents * option exn.

(** What the operating system answers when a file of the revisions
    directory is opened for writing and written: the exception it
    raises (a missing directory, a missing permission, a full disk), or
    [None] when the file was written. *)
Variable write_fault : string → option exn.

(** [sql_metadata] tells whether the [MetaData] of the migrator holds
    the [Table] of the tracking table, the only one this code puts
    there. *)
Record DBMigrator := mkDBMigrator {
  migrations : gmap string DBRevision;
  psql_engine : Database;
  sql_metadata : bool;
  applied_revisions : gset string
}.

Definition record (ev : db_event) (db : Database) : Database :=
  mkDatabase (connect_fault db) (select_fault db) (commit_fault db)
    (committed db) (journal db ++ [ev]).

Definition commit (work : Contents) (db : Database) : Database :=
  record Commit
    (mkDatabase (connect_fault db) (select_fault db) (commit_fault db) work
       (journal db)).

Definition set_engine (db : Database) (self : DBMigrator) : DBMigrator :=
  mkDBMigrator (migrations self) db (sql_metadata self)
    (applied_revisions self).

(** Calls to the database thread the migrator and may raise. *)
Definition db_action (A : Type) : Type :=
  DBMigrator → DBMigrator * result A.

Global Instance db_action_ret : MRet db_action := λ A a self, (self, Ok a).
Global Instance db_action_bind : MBind db_action := λ A B k act self,
  match act self with
  | (self', Ok a) => k a self'
  | (self', Raise e) => (self', Raise e)
  end.

(** [self.psql_engine.connect()] *)
Definition connect : db_action () := λ self,
  let db := record Connect (psql_engine self) in
  match connect_fault db with
  | Some e => (set_engine db self, Raise e)
  | None => (set_engine db self, Ok ())
  end.

(** [_get_table_reflection]: the default of [tables.get] is evaluated
    first.  [Table(table, self.sql_metadata, schema=schema,
    autoload=True)] returns the [Table] that the [MetaData] holds
    without a call to the database; when it holds none, it asks the
    database for the table, keeps it in the [MetaData] when it is
    there, and raises [NoSuchTableError], keeping nothing, when it is
    not. *)
Definition _get_table_reflection : db_action () := λ self,
  if sql_metadata self then (self, Ok ())
  else
    let db := record Reflect (psql_engine self) in
    match connect_fault db with
    | Some e => (set_engine db self, Raise e)
    | None =>
        match tracking (committed db) with
        | Some _ =>
            (mkDBMigrator (migrations self) db true (applied_revisions self),
             Ok ())
        | None => (set_engine db self, Raise NoSuchTableError)
        end
    end.

(** [_execute_query(sql_conn, migration_table.select())] *)
Definition select_revisions : db_action (list string) := λ self,
  let db := record Select (psql_engine self) in
  match select_fault db with
  | Some e => (set_engine db self, Raise e)
  | None =>
      match tracking (committed db) with
      | Some rows => (set_engine db self, Ok (elements rows))
      | None =>
          (set_engine db self,
           Raise (ProgrammingError "relation does not exist"))
      end
  end.

(** [_execute_query(sql_conn, migration_table.insert({...}))] on the
    contents of the open transaction. *)
Definition insert_revision (key : string) (work : Contents)
    : result Contents :=
  match tracking work with
  | None => Raise (ProgrammingError "relation does not exist")
  | Some rows =>
      if decide (key ∈ rows) then Raise (IntegrityError key)
      else Ok (mkContents (user_tables work) (Some ({[key]} ∪ rows)))
  end.

(** [db_setup]: [Table(...)] with a column refuses a table that the
    [MetaData] already holds, before any call to the database, and
    otherwise puts the table there, where it stays whatever comes
    next; [revision.create(engine)] fails on a table that is already
    in the database. *)
Definition db_setup (self : DBMigrator) : DBMigrator * result () :=
  if sql_metadata self
  then (self, Raise (InvalidRequestError "table is already defined"))
  else
    let db := record Connect (psql_engine self) in
    let self :=
      mkDBMigrator (migrations self) db true (applied_revisions self) in
    match connect_fault db with
    | Some e => (self, Raise e)
    | None =>
        match tracking (committed db) with
        | Some _ => (self, Raise (ProgrammingError "relation already exists"))
        | None =>
            match commit_fault db with
            | Some e => (self, Raise e)
            | None =>
                (set_engine
                   (commit
                      (mkContents (user_tables (committed db)) (Some ∅)) db)
                   self, Ok ())
            end
        end
    end.

(** [load_revisions]: the directory is a map from the path of each
    [*.y?ml] file to the revision its text parses to; a later file of
    the same revision name replaces an earlier one. *)
Definition load_revisions (self : DBMigrator) : gmap string DBRevision :=
  foldl (λ ret_revisions file,
           let revision : DBRevision := file.2 in
           if active revision
           then <[revision_name revision := revision]> ret_revisions
           else ret_revisions)
        ∅ (map_to_list (migrations self)).

(** [get_applied_revisions] *)
Definition read_revisions : db_action (list string) :=
  _ ← connect; _ ← _get_table_reflection; select_revisions.

Definition get_applied_revisions (self : DBMigrator)
    : DBMigrator * result (gset string) :=
  let '(self, outcome) := read_revisions self in
  let revision_results :=
    match outcome with
    | Raise NoSuchTableError => Ok []
    | _ => outcome
    end in
  (self, rows ← revision_results; Ok (list_to_set rows)).

(** [create_new_revision]: [revision_path.open("w")] creates the file or
    truncates the one that is there, and the dump replaces its text.
    The file is kept in parsed form: [to_yaml] writes the five
    attributes and [from_yaml] reads them back.  A name with a
    separator sends the file to another directory: the result is
    [None], the store of the revisions directory not telling what
    happens there.  When the write raises, what is left of the file is
    not told either: the exception comes without a migrator. *)
Definition create_new_revision (self : DBMigrator) (name : string)
    (deps : option (gset string)) (descr : option string)
    : option (result (DBMigrator * DBRevision)) :=
  let deps := default ∅ deps in
  let revision_template := yaml_template name deps in
  let revision_template :=
    match descr with
    | Some d =>
        mkDBRevision (revision_name revision_template)
          (dependencies revision_template) (sql_text revision_template)
          (active revision_template) (Some d)
    | None => revision_template
    end in
  let revision_path := (revision_name revision_template ++ ".yaml")%string in
  if is_file_name (revision_name revision_template)
  then
    match write_fault revision_path with
    | Some e => Some (Raise e)
    | None =>
        Some (Ok (mkDBMigrator
                    (<[revision_path := revision_template]> (migrations self))
                    (psql_engine self) (sql_metadata self)
                    (applied_revisions self),
                  revision_template))
    end
  else None.

(** [build_revision_layers] *)
Definition build_revision_layers (fuel : nat) (self : DBMigrator)
    (require_all include_applied : bool)
    : option (result (list (gset string))) :=
  let revisions := load_revisions self in
  let revision_layers : list (gset string) := [] in
  let flat_revision_layers : gset string := ∅ in
  let revision_layers :=
    if include_applied then revision_layers ++ [applied_revisions self]
    else revision_layers in
  let flat_revision_layers :=
    flat_revision_layers ∪ applied_revisions self in
  let revisions := pop_applied revisions (applied_revisions self) in
  match layer_loop fuel revisions flat_revision_layers revision_layers with
  | None => None
  | Some (revisions, revision_layers) =>
      if require_all && negb (bool_decide (size revisions = 0))
      then Some (Raise (Exception (could_not_resolve (dom revisions))))
      else Some (Ok revision_layers)
  end.

(** [apply_revision]: the dependency guard, the reflection of the
    tracking table, then one transaction around the script and the
    insert.  The name joins [applied_revisions] as the last statement
    of the block of [with sql_conn.begin()]; the commit comes when the
    block ends, and a commit that fails is rolled back and raises, the
    name staying in the set.  A block that raises is rolled back. *)
Definition apply_revision (self : DBMigrator) (revision : DBRevision)
    : DBMigrator * result () :=
  if decide (dependencies revision ≠ ∅
             ∧ ¬ dependencies revision ⊆ applied_revisions self)
  then (self,
        Raise (Exception (dependencies_not_met (revision_name revision)
                            (dependencies revision))))
  else
    match (_ ← _get_table_reflection; connect) self with
    | (self, Raise e) => (self, Raise e)
    | (self, Ok _) =>
        let db := record Begin (psql_engine self) in
        let db := record (Execute (sql_text revision)) db in
        match execute_script (sql_text revision) (committed db) with
        | (_, Some e) => (set_engine (record Rollback db) self, Raise e)
        | (work, None) =>
            let db := record (Insert (revision_name revision)) db in
            match insert_revision (revision_name revision) work with
            | Raise e => (set_engine (record Rollback db) self, Raise e)
            | Ok work =>
                let applied :=
                  {[revision_name revision]} ∪ applied_revisions self in
                match commit_fault db with
                | Some e =>
                    (mkDBMigrator (migrations self)
                       (record Rollback (record Commit db))
                       (sql_metadata self) applied, Raise e)
                | None =>
                    (mkDBMigrator (migrations self) (commit work db)
                       (sql_metadata self) applied, Ok ())
                end
            end
        end
    end.

(** [get_revision_dependencies] *)
Definition get_revision_dependencies (fuel : nat) (self : DBMigrator)
    (name : string) : option (result (list (gset string))) :=
  let revisions := load_revisions self in
  match chain_loop fuel revisions [ {[name]} ] with
  | None => None
  | Some (Raise e) => Some (Raise e)
  | Some (Ok revision_layers) => Some (Ok (reverse revision_layers))
  end.

End Migrator.

Arguments mkContents {Tables} _ _.
Arguments user_tables {Tables} _.
Arguments tracking {Tables} _.
Arguments mkDatabase {Tables} _ _ _ _ _.
Arguments connect_fault {Tables} _.
Arguments select_fault {Tables} _.
Arguments commit_fault {Tables} _.
Arguments committed {Tables} _.
Arguments journal {Tables} _.
Arguments mkDBMigrator {Tables} _ _ _ _.
Arguments migrations {Tables} _.
Arguments psql_engine {Tables} _.
Arguments sql_metadata {Tables} _.
Arguments applied_revisions {Tables} _.
Arguments record {Tables} _ _.
Arguments commit {Tables} _ _.
Arguments set_engine {Tables} _ _.
Arguments connect {Tables} _.
Arguments _get_table_reflection {Tables} _.
Arguments select_revisions {Tables} _.
Arguments insert_revision {Tables} _ _.
Arguments db_setup {Tables} _.
Arguments load_revisions {Tables} _.
Arguments read_revisions {Tables} _.
Arguments get_applied_revisions {Tables} _.
Arguments create_new_revision {Tables} _ _ _ _ _.
Arguments build_revision_layers {Tables} _ _ _ _.
Arguments apply_revision {Tables} _ _ _.
Arguments get_revision_dependencies {Tables} _ _ _.

(** ** Vocabulary of the properties *)

(** [depends_on revisions a b]: [b] is a declared dependency of the
    loaded revision [a]. *)
Definition depends_on (revisions : gmap string DBRevision)
    (a b : string) : Prop :=
  ∃ r, revisions !! a = Some r ∧ b ∈ dependencies r.

Global Instance depends_on_dec revisions : RelDecision (depends_on revisions).
Proof.
  intros a b. unfold depends_on.
  destruct (revisions !! a) as [r|] eqn:Hr.
  - destruct (decide (b ∈ dependencies r)) as [Hb|Hb].
    + left. eauto.
    + right. intros (r' & [= <-] & ?). done.
  - right. intros (r' & [=] & ?).
Defined.

(** No revision reaches itself through declared dependencies. *)
Definition acyclic (revisions : gmap string DBRevision) : Prop :=
  ∀ x, ¬ tc (depends_on revisions) x x.

(** The layers produced by the loop of [build_revision_layers] from the
    working set [revisions] and the satisfied names [flat], and the
    working set it stops with. *)
Inductive layering : gmap string DBRevision → gset string →
    list (gset string) → gmap string DBRevision → Prop :=
  | layering_stop revisions flat rest :
      scan_revisions flat revisions = (∅, rest) →
      layering revisions flat [] rest
  | layering_last revisions flat new_layer rest :
      scan_revisions flat revisions = (new_layer, rest) →
      new_layer ≠ ∅ → dom rest = ∅ →
      layering revisions flat [new_layer] rest
  | layering_next revisions flat new_layer revisions' layers rest :
      scan_revisions flat revisions = (new_layer, revisions') →
      new_layer ≠ ∅ → dom revisions' ≠ ∅ →
      layering revisions' (flat ∪ new_layer) layers rest →
      layering revisions flat (new_layer :: layers) rest.

(** [placed layers applied k r]: the name [k] lies in exactly one
    layer, and every dependency of [r] is applied or lies in a strictly
    earlier layer. *)
Definition placed (layers : list (gset string)) (applied : gset string)
    (k : string) (r : DBRevision) : Prop :=
  ∃ i L, layers !! i = Some L ∧ k ∈ L
    ∧ (∀ j L', layers !! j = Some L' → k ∈ L' → j = i)
    ∧ ∀ d, d ∈ dependencies r →
        d ∈ applied ∨ ∃ j L', j < i ∧ layers !! j = Some L' ∧ d ∈ L'.

(** The ancestor layers as the specification words them: from a layer,
    the union of the dependencies of its revisions is the next layer
    outward, until that union is empty. *)
Definition union_of_dependencies (revisions : gmap string DBRevision)
    (layer next : gset string) : Prop :=
  (∀ k, k ∈ layer → is_Some (revisions !! k))
  ∧ ∀ d, d ∈ next ↔ ∃ k r, k ∈ layer ∧ revisions !! k = Some r
                            ∧ d ∈ dependencies r.

Inductive outward_layers (revisions : gmap string DBRevision)
    : gset string → list (gset string) → Prop :=
  | outward_stop layer :
      union_of_dependencies revisions layer ∅ →
      outward_layers revisions layer [layer]
  | outward_grow layer next rest :
      union_of_dependencies revisions layer next → next ≠ ∅ →
      outward_layers revisions next rest →
      outward_layers revisions layer (layer :: rest).

Definition ancestor_layers (revisions : gmap string DBRevision)
    (target : string) (layers : list (gset string)) : Prop :=
  ∃ outward, outward_layers revisions {[target]} outward
             ∧ layers = reverse outward.

(** The guard of [apply_revision] lets a revision through when it has
    no dependency or all of them are applied. *)
Definition dependencies_met {Tables} (self : DBMigrator Tables)
    (revision : DBRevision) : Prop :=
  dependencies revision = ∅
  ∨ dependencies revision ⊆ applied_revisions self.

(** [resolvable_in n revisions applied k]: the loaded revision [k] is
    not applied and can be applied after at most [n] rounds, each round
    applying revisions whose dependencies are all applied by then. *)
Fixpoint resolvable_in (n : nat) (revisions : gmap string DBRevision)
    (applied : gset string) (k : string) : Prop :=
  match n with
  | O => False
  | S n =>
      ∃ r, revisions !! k = Some r ∧ (k ∉ applied)
           ∧ ∀ d, d ∈ dependencies r →
               d ∈ applied ∨ resolvable_in n revisions applied d
  end.

Definition resolvable (revisions : gmap string DBRevision)
    (applied : gset string) (k : string) : Prop :=
  ∃ n, resolvable_in n revisions applied k.

(** ** A store and a database to run the migrator on

    The user's tables are the list of the statements committed so far.
    A script is one statement: it joins the list, and it fails, after
    joining, when it was already there (a [CREATE TABLE] run twice);
    a revision without a script cannot be executed. *)

Section ExampleData.

Local Open Scope string_scope.

Definition run_statements (sql : option string)
    (work : Contents (list string)) : Contents (list string) * option exn :=
  match sql with
  | None => (work, Some (ProgrammingError "not an executable object"))
  | Some statement =>
      (mkContents (user_tables work ++ [statement])%list (tracking work),
       if decide (statement ∈ user_tables work)
       then Some (ProgrammingError "relation already exists")
       else None)
  end.

Definition rev (name : string) (deps : list string) : DBRevision :=
  mkDBRevision name (list_to_set deps) (Some ("CREATE TABLE " ++ name)) true
    None.

Definition database (statements : list string) (rows : option (list string))
    : Database (list string) :=
  mkDatabase None None None (mkContents statements (list_to_set <$> rows))
    [].

(** A directory where every file can be written. *)
Definition writable (path : string) : option exn := None.

(** A directory that cannot be written to. *)
Definition read_only (path : string) : option exn :=
  Some (OSError "permission denied").

(** The four revisions of the specification's example: [A] alone, [B]
    and [C] on [A], [D] on [B] and [C].  A migrator built on a database
    that has the tracking table holds the table in its [MetaData]. *)
Definition diamond_files : gmap string DBRevision :=
  list_to_map [("A.yaml", rev "A" []); ("B.yaml", rev "B" ["A"]);
               ("C.yaml", rev "C" ["A"]); ("D.yaml", rev "D" ["B"; "C"])].

Definition diamond : DBMigrator (list string) :=
  mkDBMigrator diamond_files (database [] (Some [])) true ∅.

(** The same after [A] was applied. *)
Definition diamond_A_applied : DBMigrator (list string) :=
  mkDBMigrator diamond_files (database ["CREATE TABLE A"] (Some ["A"]))
    true {["A"]}.

(** [A] is recorded, but its table is no longer among the user's. *)
Definition diamond_A_recorded : DBMigrator (list string) :=
  mkDBMigrator diamond_files (database [] (Some ["A"])) true {["A"]}.

(** One revision, on a name that no file declares. *)
Definition orphan : DBMigrator (list string) :=
  mkDBMigrator (list_to_map [("A.yaml", rev "A" ["Z"])])
    (database [] (Some [])) true ∅.

(** [B] depends on [A], whose file is marked inactive. *)
Definition inactive_parent : DBMigrator (list string) :=
  mkDBMigrator
    (list_to_map
       [("A.yaml",
         mkDBRevision "A" ∅ (Some "CREATE TABLE A") false None);
        ("B.yaml", rev "B" ["A"])])
    (database [] (Some [])) true ∅.

(** The tracking table was never created. *)
Definition before_setup : DBMigrator (list string) :=
  mkDBMigrator diamond_files (database [] None) false ∅.


(** The connection is lost before the commit. *)
Definition commit_lost : DBMigrator (list string) :=
  mkDBMigrator diamond_files
    (mkDatabase None None (Some (OperationalError "connection lost"))
       (mkContents [] (Some ∅)) [])
    true ∅.


Definition diamond_rank (name : string) : nat :=
  if decide (name = "D") then 2
  else if decide (name ∈ ["B"; "C"]) then 1
  else 0.

Definition orphan_rank (name : string) : nat :=
  if decide (name = "A") then 1 else 0.

End ExampleData.

(** ** Revision files as YAML dictionaries

    [DBRevision.from_yaml] reads the dictionary that [yaml.load] makes
    of a revision file and [to_yaml] builds the one that [yaml.dump]
    writes.  A value is null, a boolean, an integer, a string, a
    sequence or a mapping; [YOther] is any other value the loader
    builds (a float, a date, binary data, a set), told by what hashing
    and iterating it do. *)

#[local] Unset Elimination Schemes.
Inductive yaml :=
  | YNone
  | YBool (b : bool)
  | YInt (n : Z)
  | YStr (s : string)
  | YList (items : list yaml)
  | YDict (entries : list (yaml * yaml))
  | YOther (hashable : bool) (iterable : option (list yaml)).
#[local] Set Elimination Schemes.

(** [KeyError] of [input_yaml[key]], and the two [TypeError] of
    [set(value)]: on a value that cannot be iterated, and on an item
    that cannot be hashed. *)
Inductive load_exn :=
  | MissingKey (key : string)
  | NotIterable
  | Unhashable.

(** Strings are kept as their UTF-8 bytes: a character is a byte that
    is not a continuation byte, with the continuation bytes that
    follow it. *)
Definition is_continuation (c : ascii) : bool :=
  match c with
  | Ascii _ _ _ _ _ _ b6 b7 => b7 && negb b6
  end.

Definition characters (s : string) : list string :=
  foldr (λ c chars,
           match chars with
           | String d rest :: chars' =>
               if is_continuation d then String c (String d rest) :: chars'
               else String c EmptyString :: chars
           | _ => String c EmptyString :: chars
           end)
        [] (String.list_ascii_of_string s).

(** [hash(value)] raises on a list, a mapping and a set. *)
Definition hashable (value : yaml) : bool :=
  match value with
  | YList _ | YDict _ => false
  | YOther h _ => h
  | _ => true
  end.

(** [iter(value)]: the characters of a string, the items of a
    sequence, the keys of a mapping. *)
Definition iterate (value : yaml) : option (list yaml) :=
  match value with
  | YStr s => Some (YStr <$> characters s)
  | YList items => Some items
  | YDict entries => Some (entries.*1)
  | YOther _ items => items
  | _ => None
  end.

(** The constructor stores what it is given.  A value of another type
    than the annotation of its attribute makes an object that the
    record [DBRevision] cannot hold: the readers answer [None] then. *)
Definition as_str (value : yaml) : option string :=
  match value with
  | YStr s => Some s
  | _ => None
  end.

Definition as_optional_str (value : yaml) : option (option string) :=
  match value with
  | YNone => Some None
  | YStr s => Some (Some s)
  | _ => None
  end.

Definition as_bool (value : yaml) : option bool :=
  match value with
  | YBool b => Some b
  | _ => None
  end.

(** [set(value)]; the set is one of names when every item is a
    string. *)
Definition set_of (value : yaml) : load_exn + option (gset string) :=
  match iterate value with
  | None => inl NotIterable
  | Some items =>
      if forallb hashable items
      then inr (list_to_set <$> mapM as_str items)
      else inl Unhashable
  end.

(** [DBRevision.from_yaml]: the arguments of the constructor are
    evaluated from left to right, [input_yaml[key]] raises on a missing
    key and [input_yaml.get(key)] gives [None] for it.  [inr None] is
    an object outside the annotated types. *)
Definition from_yaml (input_yaml : gmap string yaml)
    : load_exn + option DBRevision :=
  match input_yaml !! "revision_name"%string with
  | None => inl (MissingKey "revision_name")
  | Some name =>
      match set_of (default YNone (input_yaml !! "dependencies"%string)) with
      | inl e => inl e
      | inr deps =>
          match input_yaml !! "sql_text"%string with
          | None => inl (MissingKey "sql_text")
          | Some sql =>
              match input_yaml !! "active"%string with
              | None => inl (MissingKey "active")
              | Some act =>
                  let descr :=
                    default YNone (input_yaml !! "description"%string) in
                  inr (name ← as_str name;
                       deps ← deps;
                       sql ← as_optional_str sql;
                       act ← as_bool act;
                       descr ← as_optional_str descr;
                       Some (mkDBRevision name deps sql act descr))
              end
          end
      end
  end.

(** [DBRevision.to_yaml]; [list(self.dependencies)] lists the set in
    the order of its iteration. *)
Definition to_yaml (revision : DBRevision) : gmap string yaml :=
  <["revision_name"%string := YStr (revision_name revision)]>
  (<["dependencies"%string :=
       YList (YStr <$> elements (dependencies revision))]>
  (<["sql_text"%string := from_option YStr YNone (sql_text revision)]>
  (<["active"%string := YBool (active revision)]>
  (<["description"%string := from_option YStr YNone (description revision)]>
   ∅)))).

(** ** The constructor and the command line

    [input] reads the next line of the standard input and raises
    [EOFError] at its end; [exit] raises [SystemExit].  What is printed
    is not kept. *)

Inductive outcome (A : Type) :=
  | Returned (a : A)
  | Raised (e : exn)
  | RaisedEOFError
  | RaisedSystemExit.
Arguments Returned {A} a.
Arguments Raised {A} e.
Arguments RaisedEOFError {A}.
Arguments RaisedSystemExit {A}.

Definition of_result {A} (r : result A) : outcome A :=
  match r with
  | Ok a => Returned a
  | Raise e => Raised e
  end.

(** [answer.lower() == "y"] *)
Definition is_yes (answer : string) : bool :=
  bool_decide (answer = "y"%string ∨ answer = "Y"%string).

(** A [for] loop whose body may raise: the first exception ends it. *)
Fixpoint for_each {S A : Type} (body : S → A → S * outcome ())
    (items : list A) (st : S) : S * outcome () :=
  match items with
  | [] => (st, Returned ())
  | item :: items =>
      match body st item with
      | (st, Returned _) => for_each body items st
      | (st, raised) => (st, raised)
      end
  end.

Section Frontend.

Context {Tables : Type}.
Variable execute_script :
  option string → Contents Tables → Contents Tables * option exn.

(** [DBMigrator.__init__]: the engine is made without a connection,
    the [MetaData] is new, and the applied set is read from the
    database. *)
Definition __init__ (files : gmap string DBRevision)
    (engine : Database Tables)
    : Database Tables * result (DBMigrator Tables) :=
  let self := mkDBMigrator files engine false ∅ in
  let '(self, applied) := get_applied_revisions self in
  (psql_engine self,
   applied ← applied;
   Ok (mkDBMigrator files (psql_engine self) (sql_metadata self) applied)).

(** The body of the inner [for] of [_apply_revision_layers]; the state
    is the migrator and the lines left on the standard input. *)
Definition confirm_and_apply (accept_all : bool)
    (revisions : gmap string DBRevision)
    (st : DBMigrator Tables * list string) (rev_name : string)
    : (DBMigrator Tables * list string) * outcome () :=
  match revisions !! rev_name with
  | None => (st, Raised (KeyError rev_name))
  | Some rev =>
      if accept_all
      then
        let '(self, applied) := apply_revision execute_script st.1 rev in
        ((self, st.2), of_result applied)
      else
        match st.2 with
        | [] => (st, RaisedEOFError)
        | revision_confirm :: stdin =>
            if is_yes revision_confirm
            then
              let '(self, applied) :=
                apply_revision execute_script st.1 rev in
              ((self, stdin), of_result applied)
            else ((st.1, stdin), Returned ())
        end
  end.

(** [DBMigratorCLI._apply_revision_layers] *)
Definition _apply_revision_layers (migrator : DBMigrator Tables)
    (stdin : list string) (revision_layers : list (gset string))
    (accept_all : bool)
    : (DBMigrator Tables * list string) * outcome () :=
  let revisions := load_revisions migrator in
  for_each
    (λ st layer,
       for_each (confirm_and_apply accept_all revisions) (elements layer) st)
    revision_layers (migrator, stdin).

(** [DBMigratorCLI.apply_all] *)
Definition apply_all (fuel : nat) (migrator : DBMigrator Tables)
    (stdin : list string)
    : option ((DBMigrator Tables * list string) * outcome ()) :=
  match build_revision_layers fuel migrator true false with
  | None => None
  | Some (Raise e) => Some ((migrator, stdin), Raised e)
  | Some (Ok revision_layers) =>
      match stdin with
      | [] => Some ((migrator, stdin), RaisedEOFError)
      | do_revisions :: stdin =>
          if negb (is_yes do_revisions)
          then Some ((migrator, stdin), RaisedSystemExit)
          else Some (_apply_revision_layers migrator stdin revision_layers
                       true)
      end
  end.

(** The applied set of the migrator is what the tracking table holds. *)
Definition cache_coherent (self : DBMigrator Tables) : Prop :=
  tracking (committed (psql_engine self)) = Some (applied_revisions self).

(** What a walk that applies every revision keeps from one revision to
    the next: the database can be reached and commits, its tracking
    table holds the applied set, and its contents are [ready] for the
    next script. *)
Definition walk_ready (ready : Contents Tables → Prop)
    (self : DBMigrator Tables) : Prop :=
  connect_fault (psql_engine self) = None
  ∧ commit_fault (psql_engine self) = None
  ∧ cache_coherent self
  ∧ ready (committed (psql_engine self)).

End Frontend.

(** Scripts that can be run again: the statement joins the list and
    never fails. *)
Definition run_again (sql : option string)
    (work : Contents (list string)) : Contents (list string) * option exn :=
  (mkContents (user_tables work ++ [default ""%string sql]) (tracking work),
   None).

(** [C] depends on [B], which depends on [C]; [A] stands alone. *)
Definition knot : DBMigrator (list string) :=
  mkDBMigrator
    (list_to_map [("A.yaml"%string, rev "A" []);
                  ("B.yaml"%string, rev "B" ["C"%string]);
                  ("C.yaml"%string, rev "C" ["B"%string])])
    (database [] (Some [])) true ∅.

(** * Properties *)

(** ** Popping the applied revisions *)

Lemma pop_applied_lookup revisions applied k r :
  pop_applied revisions applied !! k = Some r
  ↔ revisions !! k = Some r ∧ k ∉ applied.
Proof.
  unfold pop_applied.
  apply (set_fold_ind_L
    (λ acc X, acc !! k = Some r ↔ revisions !! k = Some r ∧ k ∉ X)).
  - set_solver.
  - intros x X acc Hx IH.
    rewrite lookup_delete_Some, IH. set_solver.
Qed.

Lemma pop_applied_dom revisions applied :
  dom (pop_applied revisions applied) = dom revisions ∖ applied.
Proof.
  apply set_eq. intros k.
  rewrite elem_of_difference, !elem_of_dom. unfold is_Some.
  setoid_rewrite pop_applied_lookup. naive_solver.
Qed.

(** ** One scan of the working set *)

Lemma scan_fold_spec flat l :
  NoDup l → ∀ new_layer revisions,
  let st := foldl (scan_step flat) (new_layer, revisions) l in
  (∀ k, k ∈ st.1 ↔
        k ∈ new_layer
        ∨ (k ∈ l ∧ ∃ r, revisions !! k = Some r ∧ can_apply flat k r))
  ∧ (∀ k r, st.2 !! k = Some r ↔
        revisions !! k = Some r ∧ ¬ (k ∈ l ∧ can_apply flat k r)).
Proof.
  induction 1 as [|a l Ha Hl IH]; intros new_layer revisions; cbn [foldl].
  - split; intros k; [|intros r]; set_solver.
  - unfold scan_step at 2 4. cbn [fst snd].
    destruct (revisions !! a) as [ra|] eqn:Hra;
      [destruct (decide (can_apply flat a ra)) as [Hc|Hc]|].
    + destruct (IH ({[a]} ∪ new_layer) (delete a revisions)) as [IH1 IH2].
      split.
      * intros k.
        rewrite IH1, elem_of_union, elem_of_singleton, elem_of_cons.
        setoid_rewrite lookup_delete_Some. naive_solver.
      * intros k r. rewrite IH2, lookup_delete_Some, elem_of_cons.
        naive_solver.
    + destruct (IH new_layer revisions) as [IH1 IH2]. split.
      * intros k. rewrite IH1, elem_of_cons. naive_solver.
      * intros k r. rewrite IH2, elem_of_cons. naive_solver.
    + destruct (IH new_layer revisions) as [IH1 IH2]. split.
      * intros k. rewrite IH1, elem_of_cons. naive_solver.
      * intros k r. rewrite IH2, elem_of_cons. naive_solver.
Qed.

Lemma scan_revisions_spec flat revisions new_layer rest :
  scan_revisions flat revisions = (new_layer, rest) →
  (∀ k, k ∈ new_layer ↔ ∃ r, revisions !! k = Some r ∧ can_apply flat k r)
  ∧ (∀ k r, rest !! k = Some r ↔
        revisions !! k = Some r ∧ ¬ can_apply flat k r).
Proof.
  unfold scan_revisions. intros Hscan.
  destruct (scan_fold_spec flat ((map_to_list revisions).*1)
              (NoDup_fst_map_to_list revisions) ∅ revisions) as [H1 H2].
  rewrite Hscan in H1, H2. simpl in H1, H2.
  assert (Hkeys : ∀ k r, revisions !! k = Some r →
                         k ∈ (map_to_list revisions).*1).
  { intros k r Hr. apply list_elem_of_fmap. exists (k, r).
    split; [done|]. by apply elem_of_map_to_list. }
  split.
  - intros k. rewrite H1. split.
    + intros [?|(_ & ?)]; [set_solver|done].
    + intros (r & Hr & Hc). right. split; [eauto|]. eauto.
  - intros k r. rewrite H2. split.
    + intros [Hr Hn]. split; [done|]. intros Hc. apply Hn. eauto.
    + intros [Hr Hn]. split; [done|]. intros [_ ?]. done.
Qed.

Lemma scan_revisions_dom flat revisions new_layer rest :
  scan_revisions flat revisions = (new_layer, rest) →
  dom rest = dom revisions ∖ new_layer ∧ new_layer ⊆ dom revisions.
Proof.
  intros [H1 H2]%scan_revisions_spec. split.
  - apply set_eq. intros k.
    rewrite elem_of_difference, !elem_of_dom, H1. unfold is_Some.
    setoid_rewrite H2. naive_solver.
  - intros k. rewrite H1, elem_of_dom. naive_solver.
Qed.

(** ** The loop of [build_revision_layers] *)

(** With more fuel than revisions in the working set the loop ends, and
    what it appends to the layers already there is a [layering]. *)
Lemma layer_loop_layering fuel :
  ∀ revisions flat, size revisions < fuel →
  ∃ layers rest, layering revisions flat layers rest
    ∧ ∀ acc, layer_loop fuel revisions flat acc = Some (rest, acc ++ layers).
Proof.
  induction fuel as [|fuel IH]; intros revisions flat Hfuel; [lia|].
  destruct (scan_revisions flat revisions) as [new_layer rest] eqn:Hscan.
  destruct (scan_revisions_dom _ _ _ _ Hscan) as [Hdom Hsub].
  destruct (decide (size new_layer = 0)) as [Hz|Hnz].
  - exists [], rest. split.
    + apply layering_stop. apply size_empty_iff in Hz.
      apply leibniz_equiv in Hz. by subst.
    + intros acc. cbn [layer_loop]. rewrite Hscan.
      rewrite decide_True by done. by rewrite app_nil_r.
  - assert (Hne : new_layer ≠ ∅).
    { intros ->. by rewrite size_empty in Hnz. }
    destruct (decide (size (dom rest) = 0)) as [Hd|Hd].
    + exists [new_layer], rest. split.
      * apply layering_last; [done..|].
        apply leibniz_equiv. by apply size_empty_iff.
      * intros acc. cbn [layer_loop]. rewrite Hscan.
        rewrite decide_False by done. by rewrite decide_True by done.
    + assert (Hlt : size rest < size revisions).
      { rewrite <- !size_dom. apply subset_size. rewrite Hdom.
        apply set_choose_L in Hne as [x Hx]. set_solver. }
      destruct (IH rest (flat ∪ new_layer)) as (layers & rest' & Hl & Hrun);
        [lia|].
      exists (new_layer :: layers), rest'. split.
      * apply layering_next with rest; [done..| |done].
        intros He. rewrite He, size_empty in Hd. done.
      * intros acc. cbn [layer_loop]. rewrite Hscan.
        rewrite !decide_False by done. rewrite Hrun.
        by rewrite <- app_assoc.
Qed.

(** Whatever the fuel, an outcome of the loop is a [layering]. *)
Lemma layer_loop_sound fuel :
  ∀ revisions flat acc rest out,
  layer_loop fuel revisions flat acc = Some (rest, out) →
  ∃ layers, layering revisions flat layers rest ∧ out = acc ++ layers.
Proof.
  induction fuel as [|fuel IH]; intros revisions flat acc rest out Hrun;
    [done|].
  cbn [layer_loop] in Hrun.
  destruct (scan_revisions flat revisions) as [new_layer rest1] eqn:Hscan.
  destruct (decide (size new_layer = 0)) as [Hz|Hnz].
  - injection Hrun as <- <-. exists []. split; [|by rewrite app_nil_r].
    apply layering_stop. apply size_empty_iff in Hz.
    apply leibniz_equiv in Hz. by subst.
  - assert (Hne : new_layer ≠ ∅).
    { intros ->. by rewrite size_empty in Hnz. }
    destruct (decide (size (dom rest1) = 0)) as [Hd|Hd].
    + injection Hrun as <- <-. exists [new_layer]. split; [|done].
      apply layering_last; [done..|].
      apply leibniz_equiv. by apply size_empty_iff.
    + apply IH in Hrun as (layers & Hl & ->).
      exists (new_layer :: layers). split; [|by rewrite <- app_assoc].
      apply layering_next with rest1; [done..| |done].
      intros He. rewrite He, size_empty in Hd. done.
Qed.

Lemma layering_rest revisions flat layers rest :
  layering revisions flat layers rest →
  ∀ k r, rest !! k = Some r ↔ revisions !! k = Some r ∧ k ∉ ⋃ layers.
Proof.
  induction 1 as [W F rest Hscan|W F NL rest Hscan Hne Hd
                 |W F NL W1 Ls rest Hscan Hne Hd Hl IH]; intros k r;
    destruct (scan_revisions_spec _ _ _ _ Hscan) as [H1 H2].
  - rewrite H2. simpl. specialize (H1 k). set_solver.
  - rewrite H2. rewrite union_list_cons, elem_of_union, H1. simpl.
    set_solver.
  - rewrite IH, H2, union_list_cons, elem_of_union, H1. naive_solver.
Qed.

Lemma layering_member revisions flat layers rest :
  layering revisions flat layers rest →
  ∀ i L k, layers !! i = Some L → k ∈ L →
  ∃ r, revisions !! k = Some r ∧ (k ∉ flat)
       ∧ dependencies r ⊆ flat ∪ ⋃ (take i layers).
Proof.
  induction 1 as [W F rest Hscan|W F NL rest Hscan Hne Hd
                 |W F NL W1 Ls rest Hscan Hne Hd Hl IH]; intros i L k Hi Hk;
    destruct (scan_revisions_spec _ _ _ _ Hscan) as [H1 H2].
  - done.
  - destruct i as [|i]; [|done]. injection Hi as <-.
    apply H1 in Hk as (r & Hr & Hsub & Hnin). exists r. simpl. set_solver.
  - destruct i as [|i].
    + injection Hi as <-.
      apply H1 in Hk as (r & Hr & Hsub & Hnin). exists r. simpl. set_solver.
    + destruct (IH i L k Hi Hk) as (r & Hr & Hnin & Hsub).
      apply H2 in Hr as [Hr _]. exists r. split; [done|].
      cbn [take]. rewrite union_list_cons. set_solver.
Qed.

Lemma layering_disjoint revisions flat layers rest :
  layering revisions flat layers rest →
  ∀ i j L L' k, layers !! i = Some L → layers !! j = Some L' →
  k ∈ L → k ∈ L' → i = j.
Proof.
  induction 1 as [W F rest Hscan|W F NL rest Hscan Hne Hd
                 |W F NL W1 Ls rest Hscan Hne Hd Hl IH];
    intros i j L L' k Hi Hj Hk Hk'.
  - done.
  - destruct i as [|i], j as [|j]; done.
  - destruct i as [|i], j as [|j]; [done| | |].
    + injection Hi as <-.
      destruct (layering_member _ _ _ _ Hl j L' k Hj Hk') as (r & _ & Hn & _).
      set_solver.
    + injection Hj as <-.
      destruct (layering_member _ _ _ _ Hl i L k Hi Hk) as (r & _ & Hn & _).
      set_solver.
    + f_equal. by eapply IH.
Qed.

Lemma layering_stuck revisions flat layers rest :
  layering revisions flat layers rest →
  ∀ k r, rest !! k = Some r → ¬ can_apply (flat ∪ ⋃ layers) k r.
Proof.
  induction 1 as [W F rest Hscan|W F NL rest Hscan Hne Hd
                 |W F NL W1 Ls rest Hscan Hne Hd Hl IH]; intros k r Hr.
  - destruct (scan_revisions_spec _ _ _ _ Hscan) as [H1 H2].
    simpl. rewrite union_empty_r_L. by apply H2 in Hr as [_ ?].
  - apply dom_empty_inv_L in Hd. subst. by rewrite lookup_empty in Hr.
  - rewrite union_list_cons, (assoc_L (∪)). by apply IH.
Qed.

(** What the loop leaves behind has an unmet dependency. *)
Lemma layering_unresolved revisions flat layers rest :
  layering revisions flat layers rest → dom revisions ## flat →
  ∀ k r, rest !! k = Some r →
  revisions !! k = Some r ∧ ¬ dependencies r ⊆ flat ∪ ⋃ layers.
Proof.
  intros Hl Hdisj k r Hr.
  pose proof (layering_stuck _ _ _ _ Hl k r Hr) as Hs.
  apply (layering_rest _ _ _ _ Hl) in Hr as [Hr Hn].
  split; [done|]. intros Hsub. apply Hs. split; [done|].
  apply (elem_of_dom_2 revisions) in Hr. set_solver.
Qed.

(** ** Finite acyclic relations have a sink *)

(** In a non-empty finite set where every element has a successor inside
    the set, some element reaches itself. *)
Lemma no_sink_cycle (S : gset string) :
  ∀ R : relation string, (∀ x y, Decision (R x y)) → S ≠ ∅ →
  (∀ x, x ∈ S → ∃ y, y ∈ S ∧ R x y) → ∃ x, tc R x x.
Proof.
  induction S as [|a X Ha IH] using set_ind_L; intros R Hdec Hne Hsucc;
    [done|].
  destruct (Hdec a a) as [Haa|Haa]; [exists a; by apply tc_once|].
  destruct (decide (X = ∅)) as [->|HX].
  - destruct (Hsucc a) as (y & Hy & Hay); [set_solver|].
    assert (y = a) as -> by set_solver. done.
  - destruct (IH (λ x y, R x y ∨ (R x a ∧ R a y))) as (x & Hx).
    + intros x y. destruct (Hdec x y), (Hdec x a), (Hdec a y);
        first [left; tauto | right; tauto].
    + done.
    + intros x Hx. destruct (Hsucc x) as (y & Hy & Hxy); [set_solver|].
      destruct (decide (y = a)) as [->|Hya].
      * destruct (Hsucc a) as (z & Hz & Haz); [set_solver|].
        exists z. split; [|by right].
        assert (z ≠ a) by (by intros ->). set_solver.
      * exists y. split; [set_solver|by left].
    + exists x. revert Hx. generalize x at 1 3. generalize x.
      induction 1 as [u v [Huv|[Hua Hav]]|u v w [Huv|[Hua Hav]] _ IHtc].
      * by apply tc_once.
      * eapply tc_l; [done|]. by apply tc_once.
      * by eapply tc_l.
      * eapply tc_l; [done|]. by eapply tc_l.
Qed.

(** A ranking that decreases along every dependency rules cycles out;
    it is how a concrete set of revisions is shown acyclic. *)
Lemma acyclic_by_rank revisions (rank : string → nat) :
  map_Forall (λ k r, set_Forall (λ d, rank d < rank k) (dependencies r))
    revisions →
  acyclic revisions.
Proof.
  intros Hrank.
  assert (Hstep : ∀ a b, tc (depends_on revisions) a b → rank b < rank a).
  { induction 1 as [a b (r & Hr & Hb)|a b c (r & Hr & Hb) _ IH].
    - by apply (Hrank a r Hr b).
    - specialize (Hrank a r Hr b Hb). simpl in Hrank. lia. }
  intros x Hx. apply Hstep in Hx. lia.
Qed.

(** ** The layers of [build_revision_layers] *)

Lemma layering_det revisions flat layers rest :
  layering revisions flat layers rest →
  ∀ layers' rest', layering revisions flat layers' rest' →
  layers' = layers ∧ rest' = rest.
Proof.
  induction 1 as [W F rest Hscan|W F NL rest Hscan Hne Hd
                 |W F NL W1 Ls rest Hscan Hne Hd Hl IH];
    intros layers' rest' Hl';
    inversion Hl' as [? ? ? Hscan'|? ? ? ? Hscan' Hne' Hd'
                     |? ? ? ? ? ? Hscan' Hne' Hd' Hl'']; subst;
    rewrite Hscan in Hscan'; simplify_eq; try done.
  by destruct (IH _ _ Hl'') as [-> ->].
Qed.

Lemma not_subseteq_witness (X Y : gset string) :
  ¬ X ⊆ Y → ∃ x, x ∈ X ∧ x ∉ Y.
Proof.
  intros Hn.
  destruct (not_set_Forall_Exists (λ x, x ∈ Y) X) as (x & Hx & Hxn).
  - intros Hall. apply Hn. intros x Hx. by apply Hall.
  - exists x. done.
Qed.

(** A revision that has left the working set sits in exactly one of the
    layers, after the layers that hold its dependencies. *)
Lemma layering_placed revisions flat todo rest pre k r :
  layering revisions flat todo rest →
  revisions !! k = Some r → rest !! k = None →
  (∀ L, L ∈ pre → k ∉ L) →
  placed (pre ++ todo) flat k r.
Proof.
  intros Hl Hr Hrest Hpre.
  assert (Hin : k ∈ ⋃ todo).
  { destruct (decide (k ∈ ⋃ todo)) as [|Hn]; [done|].
    assert (rest !! k = Some r) as Hc
      by (by apply (layering_rest _ _ _ _ Hl)).
    congruence. }
  apply elem_of_union_list in Hin as (L & HL & Hk).
  apply list_elem_of_lookup in HL as [i Hi].
  exists (length pre + i), L. split; [|split; [done|split]].
  - rewrite lookup_app_r by lia. rewrite <- Hi. f_equal. lia.
  - intros j L' Hj Hk'. apply lookup_app_Some in Hj as [Hj|[Hlen Hj]].
    + exfalso. apply (Hpre L'); [|done].
      apply list_elem_of_lookup. eauto.
    + pose proof (layering_disjoint _ _ _ _ Hl _ _ _ _ _ Hj Hi Hk' Hk).
      lia.
  - intros d Hd.
    destruct (layering_member _ _ _ _ Hl i L k Hi Hk) as (r' & Hr' & _ & Hsub).
    assert (r' = r) as -> by congruence.
    apply Hsub in Hd. apply elem_of_union in Hd as [Hd|Hd]; [by left|].
    right. apply elem_of_union_list in Hd as (L' & HL' & Hd).
    apply elem_of_take in HL' as (j & Hj & Hlt).
    exists (length pre + j), L'. split; [lia|]. split; [|done].
    rewrite lookup_app_r by lia. rewrite <- Hj. f_equal. lia.
Qed.

(** Without cycles, and with every dependency either loaded or applied,
    nothing is left in the working set. *)
Lemma layering_complete revisions applied todo rest :
  layering (pop_applied revisions applied) applied todo rest →
  acyclic revisions →
  (∀ k r, revisions !! k = Some r → k ∉ applied →
          dependencies r ⊆ dom revisions ∪ applied) →
  rest = ∅.
Proof.
  intros Hl Hacyc Hclosed. apply dom_empty_inv_L.
  destruct (decide (dom rest = ∅)) as [|Hne]; [done|]. exfalso.
  assert (Hdisj : dom (pop_applied revisions applied) ## applied).
  { rewrite pop_applied_dom. set_solver. }
  destruct (no_sink_cycle (dom rest) (depends_on revisions)) as [x Hx].
  - apply _.
  - done.
  - intros x [r Hr]%elem_of_dom.
    destruct (layering_unresolved _ _ _ _ Hl Hdisj x r Hr) as [Hw Hn].
    apply pop_applied_lookup in Hw as [Hw Hxa].
    apply not_subseteq_witness in Hn as (d & Hd & Hdn).
    apply not_elem_of_union in Hdn as [Hda Hdt].
    pose proof (Hclosed x r Hw Hxa d Hd) as Hdom.
    apply elem_of_union in Hdom as [[rd Hrd]%elem_of_dom|?]; [|done].
    exists d. split.
    + apply elem_of_dom. exists rd. apply (layering_rest _ _ _ _ Hl).
      split; [|done]. by apply pop_applied_lookup.
    + exists r. done.
  - by apply (Hacyc x).
Qed.

(** ** Resolvable revisions *)

Lemma resolvable_in_mono n :
  ∀ m revisions applied k, n ≤ m →
  resolvable_in n revisions applied k → resolvable_in m revisions applied k.
Proof.
  induction n as [|n IH]; intros m revisions applied k Hle; [done|].
  destruct m as [|m]; [lia|]. intros (r & Hr & Hk & Hdeps).
  exists r. split; [done|]. split; [done|]. intros d Hd.
  destruct (Hdeps d Hd) as [?|?]; [by left|right]. apply IH; [lia|done].
Qed.

(** A revision of the layer [i] can be applied after [i + 1] rounds. *)
Lemma layering_resolvable revisions applied todo rest :
  layering (pop_applied revisions applied) applied todo rest →
  ∀ i L k, todo !! i = Some L → k ∈ L →
  resolvable_in (S i) revisions applied k.
Proof.
  intros Hl i. induction (lt_wf i) as [i _ IH]. intros L k Hi Hk.
  destruct (layering_member _ _ _ _ Hl i L k Hi Hk) as (r & Hr & Hn & Hsub).
  apply pop_applied_lookup in Hr as [Hr _].
  exists r. split; [done|]. split; [done|]. intros d Hd.
  apply Hsub in Hd. apply elem_of_union in Hd as [?|Hd]; [by left|]. right.
  apply elem_of_union_list in Hd as (L' & HL' & Hd).
  apply elem_of_take in HL' as (j & Hj & Hlt).
  apply (resolvable_in_mono (S j)); [lia|]. by apply (IH j Hlt L').
Qed.

(** A revision that can be applied after some rounds is in a layer. *)
Lemma resolvable_layered revisions applied todo rest :
  layering (pop_applied revisions applied) applied todo rest →
  ∀ n k, resolvable_in n revisions applied k → k ∈ ⋃ todo.
Proof.
  intros Hl n. induction n as [|n IH]; intros k; [done|].
  intros (r & Hr & Hk & Hdeps).
  destruct (decide (k ∈ ⋃ todo)) as [|Hout]; [done|]. exfalso.
  assert (Hrest : rest !! k = Some r).
  { apply (layering_rest _ _ _ _ Hl). split; [|done].
    by apply pop_applied_lookup. }
  apply (layering_stuck _ _ _ _ Hl k r Hrest). split.
  - intros d Hd. destruct (Hdeps d Hd) as [?|Hres]; [set_solver|].
    apply elem_of_union_r. by apply IH.
  - set_solver.
Qed.

Section LayerProperties.

Context {Tables : Type}.
Implicit Types self : DBMigrator Tables.

(** The loop of [build_revision_layers] ends within one more turn than
    there are loaded revisions; its outcome is read off the [layering]
    of the working set. *)
Lemma build_revision_layers_layering self :
  ∃ todo rest,
    layering (pop_applied (load_revisions self) (applied_revisions self))
      (applied_revisions self) todo rest
    ∧ ∀ fuel require_all include_applied,
        size (load_revisions self) < fuel →
        build_revision_layers fuel self require_all include_applied
        = Some (if require_all && negb (bool_decide (size rest = 0))
                then Raise (Exception (could_not_resolve (dom rest)))
                else Ok ((if include_applied then [applied_revisions self]
                          else []) ++ todo)).
Proof.
  set (revisions := load_revisions self).
  set (applied := applied_revisions self).
  assert (Hsize : size (pop_applied revisions applied) ≤ size revisions).
  { rewrite <- !size_dom. apply subseteq_size.
    rewrite pop_applied_dom. set_solver. }
  destruct (layer_loop_layering (S (size revisions))
              (pop_applied revisions applied) applied)
    as (todo & rest & Hl & _); [lia|].
  exists todo, rest. split; [done|].
  intros fuel require_all include_applied Hfuel.
  destruct (layer_loop_layering fuel (pop_applied revisions applied) applied)
    as (todo' & rest' & Hl' & Hrun); [lia|].
  destruct (layering_det _ _ _ _ Hl _ _ Hl') as [-> ->].
  unfold build_revision_layers. fold revisions applied.
  rewrite (left_id_L ∅ (∪) applied), Hrun.
  by destruct include_applied,
       (require_all && negb (bool_decide (size rest = 0))).
Qed.

(** C2 (amended).  When the loaded revisions have no dependency cycle
    and every dependency of a revision still to apply is itself loaded
    or already applied, [build_revision_layers] ends, returns layers
    whatever the two flags, and every loaded revision that is not
    applied lies in exactly one layer, each of its dependencies being
    applied or in a strictly earlier layer. *)
Theorem build_revision_layers_places_every_revision
    self require_all include_applied :
  acyclic (load_revisions self) →
  (∀ k r, load_revisions self !! k = Some r → k ∉ applied_revisions self →
     dependencies r ⊆ dom (load_revisions self) ∪ applied_revisions self) →
  ∃ layers,
    (∀ fuel, size (load_revisions self) < fuel →
       build_revision_layers fuel self require_all include_applied
       = Some (Ok layers))
    ∧ ∀ k r, load_revisions self !! k = Some r →
        k ∉ applied_revisions self →
        placed layers (applied_revisions self) k r.
Proof.
  intros Hacyc Hclosed.
  destruct (build_revision_layers_layering self) as (todo & rest & Hl & Hrun).
  pose proof (layering_complete _ _ _ _ Hl Hacyc Hclosed) as ->.
  exists ((if include_applied then [applied_revisions self] else []) ++ todo).
  split.
  - intros fuel Hfuel. rewrite Hrun by done.
    rewrite map_size_empty, bool_decide_eq_true_2 by done.
    by rewrite andb_false_r.
  - intros k r Hr Hk. eapply layering_placed; [done| |done|].
    + by apply pop_applied_lookup.
    + destruct include_applied; intros L HL; [|by apply elem_of_nil in HL].
      apply list_elem_of_singleton in HL as ->. done.
Qed.

(** C3.  [build_revision_layers] raises exactly when [require_all] is
    set and some loaded revision that is not applied is unresolved,
    that is, cannot be applied after any number of rounds; the
    exception carries the names of all of them, each of which has a
    dependency that is not applied and is itself unresolved or not
    loaded.  Without [require_all] the partial layering is returned:
    its layers hold exactly the resolvable revisions, each in one
    layer after those of its dependencies.  The loop ends within one
    more turn than there are loaded revisions. *)
Theorem build_revision_layers_raises_iff_unresolved
    self (include_applied : bool) :
  let revisions := load_revisions self in
  let applied := applied_revisions self in
  ∃ (todo : list (gset string)) (unresolved : gset string),
    let layers := (if include_applied then [applied] else []) ++ todo in
    (∀ k, k ∈ unresolved
          ↔ k ∈ dom revisions ∧ (k ∉ applied)
            ∧ ¬ resolvable revisions applied k)
    ∧ (∀ k, k ∈ ⋃ todo ↔ resolvable revisions applied k)
    ∧ (∀ k r, revisions !! k = Some r → resolvable revisions applied k →
         placed layers applied k r)
    ∧ (∀ k r, k ∈ unresolved → revisions !! k = Some r →
         ∃ d, d ∈ dependencies r ∧ (d ∉ applied)
              ∧ (d ∉ dom revisions ∨ d ∈ unresolved))
    ∧ ∀ fuel, size revisions < fuel →
        build_revision_layers fuel self false include_applied
        = Some (Ok layers)
        ∧ build_revision_layers fuel self true include_applied
          = Some (if decide (unresolved = ∅) then Ok layers
                  else Raise (Exception (could_not_resolve unresolved))).
Proof.
  cbn zeta.
  destruct (build_revision_layers_layering self) as (todo & rest & Hl & Hrun).
  exists todo, (dom rest).
  assert (Hlayered : ∀ k, k ∈ ⋃ todo
            ↔ resolvable (load_revisions self) (applied_revisions self) k).
  { intros k. split.
    - intros (L & [i Hi]%list_elem_of_lookup & Hk)%elem_of_union_list.
      exists (S i). by apply (layering_resolvable _ _ _ _ Hl i L).
    - intros [n Hn]. by apply (resolvable_layered _ _ _ _ Hl n). }
  assert (Hleft : ∀ k, k ∈ dom rest
            ↔ k ∈ dom (load_revisions self) ∧ (k ∉ applied_revisions self)
              ∧ (k ∉ ⋃ todo)).
  { intros k. rewrite !elem_of_dom. unfold is_Some.
    setoid_rewrite (layering_rest _ _ _ _ Hl).
    setoid_rewrite pop_applied_lookup. naive_solver. }
  split; [|split; [done|split; [|split]]].
  - intros k. rewrite Hleft, Hlayered. done.
  - intros k r Hr Hres.
    assert (Hk : k ∉ applied_revisions self).
    { destruct Hres as [[|n] Hn]; [done|]. by destruct Hn as (? & _ & ? & _). }
    apply (layering_placed _ _ _ rest _ _ _ Hl).
    + by apply pop_applied_lookup.
    + destruct (rest !! k) as [r'|] eqn:Hrest; [|done].
      apply (layering_rest _ _ _ _ Hl) in Hrest as [_ Hout].
      by apply Hlayered in Hres.
    + destruct include_applied; intros L HL; [|by apply elem_of_nil in HL].
      by apply list_elem_of_singleton in HL as ->.
  - intros k r [r' Hr']%elem_of_dom Hr.
    destruct (layering_unresolved _ _ _ _ Hl) with (k := k) (r := r')
      as [Hw Hn]; [|done|].
    { rewrite pop_applied_dom. set_solver. }
    apply pop_applied_lookup in Hw as [Hw Hka].
    assert (r' = r) as -> by congruence.
    apply not_subseteq_witness in Hn as (d & Hd & Hdn).
    apply not_elem_of_union in Hdn as [Hda Hdt].
    exists d. split; [done|]. split; [done|].
    destruct (decide (d ∈ dom (load_revisions self))) as [Hin|]; [|by left].
    right. by apply Hleft.
  - intros fuel Hfuel. rewrite !Hrun by done. split; [done|].
    cbn [andb]. destruct (decide (dom rest = ∅)) as [He|Hne].
    + apply dom_empty_inv_L in He as ->.
      by rewrite map_size_empty, bool_decide_eq_true_2.
    + rewrite bool_decide_eq_false_2; [done|].
      intros Hz. apply map_size_empty_iff in Hz as ->.
      by rewrite dom_empty_L in Hne.
Qed.

(** C5.  The applied revisions are popped from the working set before
    the loop starts; a call that returns layers with [include_applied]
    returns the applied set as the first layer, and in every call the
    layers built by the loop hold no applied revision. *)
Theorem build_revision_layers_applied_first
    fuel self require_all include_applied layers :
  build_revision_layers fuel self require_all include_applied
  = Some (Ok layers) →
  dom (pop_applied (load_revisions self) (applied_revisions self))
    ## applied_revisions self
  ∧ ∃ todo,
      layers
      = (if include_applied then [applied_revisions self] else []) ++ todo
      ∧ ∀ L, L ∈ todo → L ## applied_revisions self.
Proof.
  intros Hrun. split; [rewrite pop_applied_dom; set_solver|].
  unfold build_revision_layers in Hrun.
  destruct (layer_loop _ _ _ _) as [[rest out]|] eqn:Hloop; [|done].
  apply layer_loop_sound in Hloop as (todo & Hl & ->).
  destruct (require_all && _); [done|]. injection Hrun as <-.
  exists todo. split; [by destruct include_applied|].
  intros L [i Hi]%list_elem_of_lookup k Hk Happlied.
  destruct (layering_member _ _ _ _ Hl i L k Hi Hk) as (r & _ & Hn & _).
  set_solver.
Qed.

End LayerProperties.

(** ** Applying a revision *)

Section ApplyProperties.

Context {Tables : Type}.
Variable execute_script :
  option string → Contents Tables → Contents Tables * option exn.
Implicit Types self : DBMigrator Tables.

(** What [apply_revision] does once the guard is passed, case by case.
    The transaction opens when the server answers and the table is
    known: held by the [MetaData], or found in the database. *)
Lemma apply_revision_cases self revision :
  dependencies_met self revision →
  let db := psql_engine self in
  let name := revision_name revision in
  let sql := sql_text revision in
  let logged contents events :=
    mkDatabase (connect_fault db) (select_fault db) (commit_fault db)
      contents (journal db ++ events) in
  let opened :=
    (if sql_metadata self then [] else [Reflect])
      ++ [Connect; Begin; Execute sql] in
  let after contents events applied :=
    mkDBMigrator (migrations self) (logged contents (opened ++ events)) true
      applied in
  apply_revision execute_script self revision
  = match connect_fault db with
    | Some e =>
        (set_engine
           (logged (committed db)
              (if sql_metadata self then [Connect] else [Reflect])) self,
         Raise e)
    | None =>
        if match tracking (committed db) with
           | Some _ => true
           | None => sql_metadata self
           end
        then
          match execute_script sql (committed db) with
          | (_, Some e) =>
              (after (committed db) [Rollback] (applied_revisions self),
               Raise e)
          | (work, None) =>
              match insert_revision name work with
              | Raise e =>
                  (after (committed db) [Insert name; Rollback]
                     (applied_revisions self), Raise e)
              | Ok work =>
                  match commit_fault db with
                  | Some e =>
                      (after (committed db) [Insert name; Commit; Rollback]
                         ({[name]} ∪ applied_revisions self), Raise e)
                  | None =>
                      (after work [Insert name; Commit]
                         ({[name]} ∪ applied_revisions self), Ok ())
                  end
              end
          end
        else
          (set_engine (logged (committed db) [Reflect]) self,
           Raise NoSuchTableError)
    end.
Proof.
  intros Hmet. cbn zeta. unfold apply_revision.
  rewrite decide_False by (destruct Hmet; set_solver).
  destruct self as [files [cf sf cmf contents log] known applied].
  unfold mbind, db_action_bind, _get_table_reflection, connect, set_engine,
    commit, record. cbn.
  destruct known, cf as [e|], (tracking contents) as [rows|]; cbn;
    try reflexivity;
    (destruct (execute_script (sql_text revision) contents)
       as [work [e|]]; cbn; [by rewrite <- ?app_assoc|]);
    (destruct (insert_revision (revision_name revision) work) as [work'|e];
       cbn; [|by rewrite <- ?app_assoc]);
    destruct cmf as [e|]; cbn; by rewrite <- ?app_assoc.
Qed.

(** C4.  When a dependency of the revision is missing from the applied
    set, [apply_revision] raises the dependencies-not-met exception,
    which carries the name of the revision and its dependency set, the
    missing names among them, and the migrator is left as it was: no
    call reaches the database, so nothing is executed or inserted. *)
Theorem apply_revision_unmet_dependency self revision d :
  d ∈ dependencies revision → d ∉ applied_revisions self →
  ∃ reported,
    apply_revision execute_script self revision
    = (self, Raise (Exception (dependencies_not_met
                                 (revision_name revision) reported)))
    ∧ (∀ m, m ∈ dependencies revision → m ∉ applied_revisions self →
            m ∈ reported)
    ∧ journal (psql_engine
                 (apply_revision execute_script self revision).1)
      = journal (psql_engine self).
Proof.
  intros Hd Hmissing. exists (dependencies revision).
  assert (Hguard : apply_revision execute_script self revision
    = (self, Raise (Exception (dependencies_not_met
                                 (revision_name revision)
                                 (dependencies revision))))).
  { unfold apply_revision. rewrite decide_True; [done|]. set_solver. }
  rewrite Hguard. done.
Qed.


(** C6 (amended).  Let the revision be recorded in the tracking table
    and in the applied set, with its dependencies met and the database
    reachable.  Applying it again runs its script first: when the
    script fails, its error is the one raised; when the script succeeds
    and the row of the revision is still in the tracking table, the
    insert raises the primary-key [IntegrityError].  Either way the
    call fails, and the committed contents and the applied set are left
    unchanged. *)
Theorem apply_revision_again_fails self revision rows self' outcome :
  dependencies_met self revision →
  connect_fault (psql_engine self) = None →
  tracking (committed (psql_engine self)) = Some rows →
  revision_name revision ∈ rows →
  revision_name revision ∈ applied_revisions self →
  let run := execute_script (sql_text revision)
               (committed (psql_engine self)) in
  (run.2 = None → ∃ rows', tracking run.1 = Some rows'
                           ∧ revision_name revision ∈ rows') →
  apply_revision execute_script self revision = (self', outcome) →
  outcome = Raise (match run.2 with
                   | Some e => e
                   | None => IntegrityError (revision_name revision)
                   end)
  ∧ committed (psql_engine self') = committed (psql_engine self)
  ∧ applied_revisions self' = applied_revisions self.
Proof.
  intros Hmet Hfault Htrack Hrow Hcache. cbn zeta. intros Hkept Happly.
  rewrite (apply_revision_cases self revision Hmet) in Happly.
  cbn zeta in Happly. rewrite Hfault, Htrack in Happly.
  destruct (execute_script (sql_text revision) (committed (psql_engine self)))
    as [work [e|]] eqn:Hrun; cbn in *.
  - injection Happly as <- <-. done.
  - destruct (Hkept eq_refl) as (rows' & Hrows' & Hin).
    unfold insert_revision in Happly. rewrite Hrows' in Happly.
    rewrite decide_True in Happly by done.
    injection Happly as <- <-. done.
Qed.

End ApplyProperties.

(** ** Reading the applied revisions and creating a revision *)

Section StoreProperties.

Context {Tables : Type}.
Variable write_fault : string → option exn.
Implicit Types self : DBMigrator Tables.

(** The read of [get_applied_revisions], case by case. *)
Lemma read_revisions_cases self :
  let db := psql_engine self in
  (read_revisions self).2
  = match connect_fault db with
    | Some e => Raise e
    | None =>
        match tracking (committed db) with
        | None =>
            if sql_metadata self
            then match select_fault db with
                 | Some e => Raise e
                 | None => Raise (ProgrammingError "relation does not exist")
                 end
            else Raise NoSuchTableError
        | Some rows =>
            match select_fault db with
            | Some e => Raise e
            | None => Ok (elements rows)
            end
        end
    end.
Proof.
  destruct self as [files [cf sf cmf contents log] known applied].
  unfold read_revisions, mbind, db_action_bind, connect,
    _get_table_reflection, select_revisions, set_engine, record. cbn.
  destruct cf, known, sf; cbn;
    destruct (tracking contents) eqn:Htrack; cbn; rewrite ?Htrack; done.
Qed.

Lemma get_applied_revisions_outcome self :
  (get_applied_revisions self).2
  = match (read_revisions self).2 with
    | Raise NoSuchTableError => Ok ∅
    | Raise e => Raise e
    | Ok rows => Ok (list_to_set rows)
    end.
Proof.
  unfold get_applied_revisions.
  destruct (read_revisions self) as [self' [rows|e]]; cbn; [done|].
  by destruct e.
Qed.


(** C7 (amended).  [create_new_revision] has no check on the name: for
    a name without a separator it fails only when the write does, with
    the exception of the write, whether or not a file is at the path;
    when the write passes it returns the template (no script, active,
    the given dependencies and description) and leaves it at the path
    derived from the name, replacing whatever file was there; other
    files, the database and the applied set are untouched. *)
Theorem create_new_revision_overwrites self name deps descr :
  is_file_name name = true →
  let path := (name ++ ".yaml")%string in
  let template := mkDBRevision name (default ∅ deps) None true descr in
  let created := create_new_revision write_fault self name deps descr in
  (∀ e, created = Some (Raise e) ↔ write_fault path = Some e)
  ∧ (write_fault path = None →
     created
     = Some (Ok (mkDBMigrator (<[path := template]> (migrations self))
                   (psql_engine self) (sql_metadata self)
                   (applied_revisions self), template)))
  ∧ ∀ self' returned, created = Some (Ok (self', returned)) →
      returned = template
      ∧ migrations self' !! path = Some template
      ∧ ∀ other, other ≠ path →
          migrations self' !! other = migrations self !! other.
Proof.
  intros Hname. cbn zeta.
  assert (Hrun : create_new_revision write_fault self name deps descr
    = match write_fault (name ++ ".yaml")%string with
      | Some e => Some (Raise e)
      | None =>
          Some (Ok (mkDBMigrator
                      (<[(name ++ ".yaml")%string :=
                           mkDBRevision name (default ∅ deps) None true
                             descr]> (migrations self))
                      (psql_engine self) (sql_metadata self)
                      (applied_revisions self),
                    mkDBRevision name (default ∅ deps) None true descr))
      end).
  { unfold create_new_revision.
    destruct descr; cbn -[is_file_name]; by rewrite Hname. }
  rewrite Hrun.
  destruct (write_fault (name ++ ".yaml")%string) as [e|].
  - split; [intros e'; split; congruence|]. split; [done|]. done.
  - split; [intros e'; split; congruence|]. split; [done|].
    intros self' returned [= <- <-]. cbn. split; [done|].
    split; [by rewrite lookup_insert_eq|].
    intros other Hother. by rewrite lookup_insert_ne.
Qed.

End StoreProperties.

(** ** The dependency chain of one revision *)

Section ChainProperties.

Variable revisions : gmap string DBRevision.

Lemma union_step_ok acc a :
  union_step revisions (Ok acc) a
  = match revisions !! a with
    | Some r => Ok (acc ∪ dependencies r)
    | None => Raise (KeyError a)
    end.
Proof. reflexivity. Qed.

Lemma union_fold_raise l e :
  foldl (union_step revisions) (Raise e) l = Raise e.
Proof. induction l as [|a l IH]; [done|]. cbn [foldl]. apply IH. Qed.

Lemma union_fold_spec l :
  ∀ acc,
  match foldl (union_step revisions) (Ok acc) l with
  | Ok u =>
      (∀ k, k ∈ l → is_Some (revisions !! k))
      ∧ ∀ d, d ∈ u ↔ d ∈ acc ∨ ∃ k r, k ∈ l ∧ revisions !! k = Some r
                                        ∧ d ∈ dependencies r
  | Raise e => ∃ k, e = KeyError k ∧ k ∈ l ∧ revisions !! k = None
  end.
Proof.
  induction l as [|a l IH]; intros acc; cbn [foldl].
  - split; [by intros k ?%elem_of_nil|].
    intros d. split; [by left|]. intros [?|(k & r & ?%elem_of_nil & _)]; done.
  - rewrite union_step_ok.
    destruct (revisions !! a) as [ra|] eqn:Ha.
    + specialize (IH (acc ∪ dependencies ra)).
      destruct (foldl _ _ l) as [u|e].
      * destruct IH as [IH1 IH2]. split.
        -- intros k [->|?]%elem_of_cons; eauto.
        -- intros d. rewrite IH2, elem_of_union.
           setoid_rewrite elem_of_cons. naive_solver.
      * destruct IH as (k & -> & Hk & Hnone). exists k.
        split; [done|]. split; [by right|done].
    + rewrite union_fold_raise. exists a. split; [done|]. split; [by left|done].
Qed.

Lemma dependency_union_spec layer :
  match dependency_union revisions layer with
  | Ok next => union_of_dependencies revisions layer next
  | Raise e => ∃ k, e = KeyError k ∧ k ∈ layer ∧ revisions !! k = None
  end.
Proof.
  unfold dependency_union, union_of_dependencies.
  pose proof (union_fold_spec (elements layer) ∅) as Hspec.
  destruct (foldl _ _ _) as [u|e].
  - destruct Hspec as [H1 H2]. split.
    + intros k Hk. apply H1. by apply elem_of_elements.
    + intros d. rewrite H2. setoid_rewrite elem_of_elements. set_solver.
  - destruct Hspec as (k & -> & Hk & Hnone). exists k.
    split; [done|]. split; [by apply elem_of_elements|done].
Qed.

Lemma union_of_dependencies_unique layer next next' :
  union_of_dependencies revisions layer next →
  union_of_dependencies revisions layer next' → next = next'.
Proof.
  intros [_ H] [_ H']. apply set_eq. intros d. by rewrite H, H'.
Qed.

Lemma dependency_union_complete layer next :
  union_of_dependencies revisions layer next →
  dependency_union revisions layer = Ok next.
Proof.
  intros Hnext. pose proof (dependency_union_spec layer) as Hspec.
  destruct (dependency_union revisions layer) as [u|e].
  - f_equal. by eapply union_of_dependencies_unique.
  - destruct Hspec as (k & _ & Hk & Hnone). destruct Hnext as [Hall _].
    destruct (Hall k Hk) as [r Hr]. congruence.
Qed.

Lemma chain_loop_mono fuel :
  ∀ fuel' layers outcome, fuel ≤ fuel' →
  chain_loop fuel revisions layers = Some outcome →
  chain_loop fuel' revisions layers = Some outcome.
Proof.
  induction fuel as [|fuel IH]; intros fuel' layers outcome Hle Hrun;
    [done|].
  destruct fuel' as [|fuel']; [lia|]. cbn [chain_loop] in *.
  destruct (dependency_union _ _) as [next|e]; [|done].
  destruct (decide (size next = 0)); [done|].
  apply IH; [lia|done].
Qed.

(** What the loop returns are the layers of the specification. *)
Lemma chain_loop_outward fuel :
  ∀ pre layer out,
  chain_loop fuel revisions (pre ++ [layer]) = Some (Ok out) →
  ∃ outward, outward_layers revisions layer outward ∧ out = pre ++ outward.
Proof.
  induction fuel as [|fuel IH]; intros pre layer out Hrun; [done|].
  cbn [chain_loop] in Hrun. rewrite last_snoc in Hrun. cbn in Hrun.
  pose proof (dependency_union_spec layer) as Hspec.
  destruct (dependency_union revisions layer) as [next|e]; [|done].
  destruct (decide (size next = 0)) as [Hz|Hnz].
  - injection Hrun as <-. exists [layer]. split; [|done].
    apply outward_stop. apply size_empty_iff in Hz.
    apply leibniz_equiv in Hz. by subst.
  - apply IH in Hrun as (outward & Hout & ->).
    exists (layer :: outward). split; [|by rewrite <- app_assoc].
    apply outward_grow with next; [done| |done].
    intros ->. by rewrite size_empty in Hnz.
Qed.

(** The layers of the specification are returned, given the fuel. *)
Lemma outward_chain_loop layer outward :
  outward_layers revisions layer outward →
  ∀ pre fuel, length outward ≤ fuel →
  chain_loop fuel revisions (pre ++ [layer]) = Some (Ok (pre ++ outward)).
Proof.
  induction 1 as [layer Hstop|layer next rest Hnext Hne Hrest IH];
    intros pre fuel Hfuel; cbn in Hfuel.
  - destruct fuel as [|fuel]; [lia|]. cbn [chain_loop].
    rewrite last_snoc. cbn.
    rewrite (dependency_union_complete _ _ Hstop).
    by rewrite decide_True by apply size_empty.
  - destruct fuel as [|fuel]; [lia|]. cbn [chain_loop].
    rewrite last_snoc. cbn.
    rewrite (dependency_union_complete _ _ Hnext).
    rewrite decide_False.
    + rewrite IH by lia. by rewrite <- app_assoc.
    + intros Hz. apply size_empty_iff in Hz. apply leibniz_equiv in Hz.
      done.
Qed.

(** A name that is not loaded, reached from the current layer, makes
    the loop raise [KeyError]. *)
Lemma chain_loop_key_error x missing :
  rtc (depends_on revisions) x missing → revisions !! missing = None →
  ∀ pre layer, x ∈ layer →
  ∃ k fuel0, revisions !! k = None
    ∧ ∀ fuel, fuel0 ≤ fuel →
        chain_loop fuel revisions (pre ++ [layer])
        = Some (Raise (KeyError k)).
Proof.
  induction 1 as [x|x y z (r & Hr & Hy) Hrest IH];
    intros Hmissing pre layer Hx;
    pose proof (dependency_union_spec layer) as Hspec;
    destruct (dependency_union revisions layer) as [next|e] eqn:Hunion.
  - destruct Hspec as [Hall _]. destruct (Hall x Hx) as [r Hr]. congruence.
  - destruct Hspec as (k & -> & Hk & Hnone). exists k, 1.
    split; [done|]. intros [|fuel] Hfuel; [lia|].
    cbn [chain_loop]. rewrite last_snoc. cbn. by rewrite Hunion.
  - destruct Hspec as [_ Hnext].
    assert (Hin : y ∈ next) by (apply Hnext; eauto).
    destruct (IH Hmissing (pre ++ [layer]) next Hin) as (k & fuel0 & Hk & Hrun).
    exists k, (S fuel0). split; [done|].
    intros [|fuel] Hfuel; [lia|]. cbn [chain_loop]. rewrite last_snoc. cbn.
    rewrite Hunion. rewrite decide_False.
    + apply Hrun. lia.
    + intros Hz. apply size_empty_iff in Hz. set_solver.
  - destruct Hspec as (k & -> & Hk & Hnone). exists k, 1.
    split; [done|]. intros [|fuel] Hfuel; [lia|].
    cbn [chain_loop]. rewrite last_snoc. cbn. by rewrite Hunion.
Qed.

End ChainProperties.

(** ** Paths in an acyclic set of revisions *)

(** A path along declared dependencies visits each loaded revision at
    most once, so it is no longer than there are revisions. *)
Lemma acyclic_path_bound revisions m x y :
  acyclic revisions → nsteps (depends_on revisions) m x y →
  m ≤ size revisions.
Proof.
  intros Hacyc Hpath.
  assert (∃ l : list string, length l = m ∧ NoDup l
            ∧ ∀ w, w ∈ l → w ∈ dom revisions
                           ∧ rtc (depends_on revisions) x w)
    as (l & <- & Hnodup & Hl).
  { induction Hpath as [x|m x y z Hxy Hyz (l & Hlen & Hnodup & Hl)].
    - exists []. split; [done|]. split; [constructor|].
      by intros w ?%elem_of_nil.
    - exists (x :: l). split; [by cbn; rewrite Hlen|]. split.
      + constructor; [|done]. intros [_ Hyx]%Hl.
        apply (Hacyc x). eapply tc_rtc_r; [by apply tc_once|done].
      + intros w [->|Hw]%elem_of_cons.
        * split; [|done]. destruct Hxy as (r & Hr & _).
          by apply (elem_of_dom_2 revisions) in Hr.
        * destruct (Hl w Hw) as [? ?]. split; [done|].
          by eapply rtc_l. }
  rewrite <- size_dom. unfold size, set_size. cbn.
  apply submseteq_length, NoDup_submseteq; [done|].
  intros w [Hw _]%Hl. by apply elem_of_elements.
Qed.

(** When every name reached from a layer is loaded and the paths that
    leave it are bounded, the layers outward of it exist. *)
Lemma outward_layers_exist revisions bound :
  ∀ layer,
  (∀ x n, x ∈ layer → rtc (depends_on revisions) x n →
          is_Some (revisions !! n)) →
  (∀ x y m, x ∈ layer → nsteps (depends_on revisions) m x y → m ≤ bound) →
  ∃ outward, outward_layers revisions layer outward
             ∧ length outward ≤ S bound.
Proof.
  induction bound as [|bound IH]; intros layer Hloaded Hbound;
    pose proof (dependency_union_spec revisions layer) as Hspec;
    (destruct (dependency_union revisions layer) as [next|e];
      [|destruct Hspec as (k & _ & Hk & Hnone);
        destruct (Hloaded k k Hk (rtc_refl _ _)); congruence]);
    (destruct (decide (next = ∅)) as [->|Hne];
      [exists [layer]; split; [by apply outward_stop|cbn; lia]|]).
  - exfalso. apply set_choose_L in Hne as [d Hd].
    destruct Hspec as [_ Hnext]. apply Hnext in Hd as (k & r & Hk & Hr & Hd).
    assert (1 ≤ 0); [|lia]. apply (Hbound k d 1 Hk).
    apply nsteps_once. exists r. done.
  - destruct (IH next) as (outward & Hout & Hlen).
    + intros x n Hx Hxn. destruct Hspec as [_ Hnext].
      apply Hnext in Hx as (k & r & Hk & Hr & Hx).
      apply (Hloaded k n Hk). eapply rtc_l; [|done]. exists r. done.
    + intros x y m Hx Hxy. destruct Hspec as [_ Hnext].
      apply Hnext in Hx as (k & r & Hk & Hr & Hx).
      assert (S m ≤ S bound); [|lia]. apply (Hbound k y (S m) Hk).
      eapply nsteps_l; [|done]. exists r. done.
    + exists (layer :: outward). split; [|cbn; lia].
      by apply outward_grow with next.
Qed.

(** Names reached from a loaded revision are loaded when every declared
    dependency is. *)
Lemma closed_reachable revisions x n :
  map_Forall (λ _ r, dependencies r ⊆ dom revisions) revisions →
  is_Some (revisions !! x) → rtc (depends_on revisions) x n →
  is_Some (revisions !! n).
Proof.
  intros Hclosed Hx Hpath.
  induction Hpath as [x|x y z (r & Hr & Hy) _ IH]; [done|].
  apply IH. apply elem_of_dom. by apply (Hclosed x r Hr).
Qed.

Section DependencyChain.

Context {Tables : Type}.
Implicit Types self : DBMigrator Tables.

(** C9.  [get_revision_dependencies] returns exactly the ancestor
    layers of the specification: the layers it returns are those
    obtained from the singleton of the target by taking unions of
    dependencies outward until the union is empty, reversed, and every
    such sequence is returned once the fuel allows.  The outcome does
    not depend on the applied set nor on the database.  On revisions
    without a dependency cycle whose reached names are all loaded it
    returns within one more turn than there are revisions. *)
Theorem get_revision_dependencies_ancestor_layers self name :
  let revisions := load_revisions self in
  (∀ layers,
     ancestor_layers revisions name layers
     ↔ ∃ fuel, get_revision_dependencies fuel self name = Some (Ok layers))
  ∧ (∀ fuel (db : Database Tables) metadata applied,
       get_revision_dependencies fuel
         (mkDBMigrator (migrations self) db metadata applied) name
       = get_revision_dependencies fuel self name)
  ∧ (acyclic revisions →
     (∀ n, rtc (depends_on revisions) name n → is_Some (revisions !! n)) →
     ∃ layers, ancestor_layers revisions name layers
       ∧ ∀ fuel, size revisions < fuel →
           get_revision_dependencies fuel self name = Some (Ok layers)).
Proof.
  cbn zeta. split; [|split; [done|]].
  - intros layers. unfold get_revision_dependencies, ancestor_layers. split.
    + intros (outward & Hout & ->). exists (length outward).
      pose proof (outward_chain_loop _ _ _ Hout [] (length outward))
        as Hrun.
      cbn [app] in Hrun. by rewrite Hrun.
    + intros [fuel Hrun].
      destruct (chain_loop fuel _ _) as [[out|e]|] eqn:Hloop; [|done..].
      injection Hrun as <-.
      apply (chain_loop_outward _ fuel []) in Hloop as (outward & Hout & ->).
      by exists outward.
  - intros Hacyc Hloaded.
    destruct (outward_layers_exist (load_revisions self)
                (size (load_revisions self)) {[name]})
      as (outward & Hout & Hlen).
    + intros x n ->%elem_of_singleton. apply Hloaded.
    + intros x y m _. by apply acyclic_path_bound.
    + exists (reverse outward). split; [by exists outward|].
      intros fuel Hfuel. unfold get_revision_dependencies.
      pose proof (outward_chain_loop _ _ _ Hout [] fuel) as Hrun.
      cbn [app] in Hrun. rewrite Hrun by lia. done.
Qed.

(** C10.  When the target, or a name reached from it through declared
    dependencies of loaded revisions, is not loaded,
    [get_revision_dependencies] raises [KeyError] on a name that is not
    loaded, whatever fuel is left, and at no fuel does it return
    layers. *)
Theorem get_revision_dependencies_key_error self name missing :
  rtc (depends_on (load_revisions self)) name missing →
  load_revisions self !! missing = None →
  (∃ k fuel0, load_revisions self !! k = None
     ∧ ∀ fuel, fuel0 ≤ fuel →
         get_revision_dependencies fuel self name
         = Some (Raise (KeyError k)))
  ∧ ∀ fuel layers,
      get_revision_dependencies fuel self name ≠ Some (Ok layers).
Proof.
  intros Hreach Hmissing.
  destruct (chain_loop_key_error _ _ _ Hreach Hmissing [] {[name]})
    as (k & fuel0 & Hk & Hrun); [set_solver|].
  split.
  - exists k, fuel0. split; [done|]. intros fuel Hfuel.
    unfold get_revision_dependencies. cbn in Hrun. by rewrite Hrun.
  - intros fuel layers Hok. unfold get_revision_dependencies in Hok.
    destruct (chain_loop fuel _ _) as [outcome|] eqn:Hloop; [|done].
    apply (chain_loop_mono _ fuel (fuel `max` fuel0)) in Hloop; [|lia].
    cbn in Hrun. rewrite Hrun in Hloop by lia.
    injection Hloop as <-. done.
Qed.

End DependencyChain.

(** * The migrator at work *)

Section Examples.

Local Open Scope string_scope.

Example load_diamond :
  dom (load_revisions diamond) = {["A"; "B"; "C"; "D"]}.
Proof. vm_compute. reflexivity. Qed.

Example load_skips_inactive :
  dom (load_revisions inactive_parent) = {["B"]}.
Proof. vm_compute. reflexivity. Qed.

Example diamond_layers :
  build_revision_layers 5 diamond true false
  = Some (Ok [ {["A"]}; {["B"; "C"]}; {["D"]} ]).
Proof. vm_compute. reflexivity. Qed.

Example diamond_layers_applied :
  build_revision_layers 5 diamond_A_applied true true
  = Some (Ok [ {["A"]}; {["B"; "C"]}; {["D"]} ]).
Proof. vm_compute. reflexivity. Qed.

Example diamond_chain :
  get_revision_dependencies 5 diamond "D"
  = Some (Ok [ {["A"]}; {["B"; "C"]}; {["D"]} ]).
Proof. vm_compute. reflexivity. Qed.

Lemma diamond_acyclic : acyclic (load_revisions diamond).
Proof.
  apply (acyclic_by_rank _ diamond_rank).
  apply (bool_decide_unpack _). vm_compute. reflexivity.
Qed.

Lemma orphan_acyclic : acyclic (load_revisions orphan).
Proof.
  apply (acyclic_by_rank _ orphan_rank).
  apply (bool_decide_unpack _). vm_compute. reflexivity.
Qed.

Lemma diamond_closed k r :
  load_revisions diamond !! k = Some r →
  dependencies r ⊆ dom (load_revisions diamond) ∪ applied_revisions diamond.
Proof.
  revert k r. apply map_Forall_lookup.
  apply (bool_decide_unpack _). vm_compute. reflexivity.
Qed.

(** The diamond is layered in full. *)
Lemma diamond_placed :
  acyclic (load_revisions diamond)
  ∧ ∃ layers,
      (∀ fuel, size (load_revisions diamond) < fuel →
         build_revision_layers fuel diamond true false = Some (Ok layers))
      ∧ ∀ k r, load_revisions diamond !! k = Some r →
          k ∉ applied_revisions diamond →
          placed layers (applied_revisions diamond) k r.
Proof.
  split; [exact diamond_acyclic|].
  apply build_revision_layers_places_every_revision.
  - exact diamond_acyclic.
  - intros k r Hr _. exact (diamond_closed k r Hr).
Defined.

(** A revision on a name that is neither loaded nor applied is in no
    layer, though nothing is cyclic. *)
Lemma orphan_not_layered :
  acyclic (load_revisions orphan)
  ∧ load_revisions orphan !! "A" = Some (rev "A" ["Z"])
  ∧ ("A" ∉ applied_revisions orphan)
  ∧ ∀ fuel, 0 < fuel →
      build_revision_layers fuel orphan false false = Some (Ok [])
      ∧ build_revision_layers fuel orphan true false
        = Some (Raise (Exception (could_not_resolve {["A"]}))).
Proof.
  split; [exact orphan_acyclic|]. split; [vm_compute; reflexivity|].
  split; [set_solver|].
  intros [|fuel] Hfuel; [lia|]. split; vm_compute; reflexivity.
Qed.

(** The orphan is the one unresolved revision, reported when
    [require_all] is set and left out silently when it is not. *)
Lemma orphan_unresolved :
  ∃ unresolved : gset string,
    unresolved = {["A"]}
    ∧ ¬ resolvable (load_revisions orphan) (applied_revisions orphan) "A"
    ∧ build_revision_layers 2 orphan false false = Some (Ok [])
    ∧ build_revision_layers 2 orphan true false
      = Some (Raise (Exception (could_not_resolve unresolved))).
Proof.
  destruct (build_revision_layers_raises_iff_unresolved orphan false)
    as (todo & unresolved & Hunresolved & _ & _ & _ & Hrun).
  destruct (Hrun 2) as [_ Hall]; [vm_compute; lia|].
  assert (Hraise : build_revision_layers 2 orphan true false
                   = Some (Raise (Exception (could_not_resolve {["A"]}))))
    by (vm_compute; reflexivity).
  rewrite Hraise in Hall.
  destruct (decide (unresolved = ∅)); [discriminate Hall|].
  injection Hall as <-. exists {["A"]}. split; [reflexivity|].
  split; [|split; [vm_compute; reflexivity|exact Hraise]].
  apply (Hunresolved "A"). set_solver.
Defined.

(** [B] cannot be applied to the diamond before [A]. *)
Lemma diamond_B_before_A :
  "A" ∈ dependencies (rev "B" ["A"])
  ∧ ("A" ∉ applied_revisions diamond)
  ∧ ∃ reported,
      apply_revision run_statements diamond (rev "B" ["A"])
      = (diamond, Raise (Exception (dependencies_not_met "B" reported)))
      ∧ "A" ∈ reported
      ∧ journal (psql_engine
                   (apply_revision run_statements diamond (rev "B" ["A"])).1)
        = [].
Proof.
  assert (Hdep : "A" ∈ dependencies (rev "B" ["A"])) by set_solver.
  assert (Hmissing : "A" ∉ applied_revisions diamond) by set_solver.
  split; [exact Hdep|]. split; [exact Hmissing|].
  destruct (apply_revision_unmet_dependency run_statements diamond
              (rev "B" ["A"]) "A" Hdep Hmissing)
    as (reported & Hrun & Hreported & Hjournal).
  exists reported. split; [exact Hrun|]. split; [|exact Hjournal].
  exact (Hreported "A" Hdep Hmissing).
Defined.

(** With [A] applied and [include_applied], the applied set is the
    first layer and the others hold no applied revision. *)
Lemma diamond_applied_first :
  build_revision_layers 5 diamond_A_applied true true
  = Some (Ok [ {["A"]}; {["B"; "C"]}; {["D"]} ])
  ∧ ∃ todo,
      [ {["A"]}; {["B"; "C"]}; {["D"]} ]
      = ([applied_revisions diamond_A_applied] ++ todo)%list
      ∧ ∀ L, L ∈ todo → L ## applied_revisions diamond_A_applied.
Proof.
  split; [exact diamond_layers_applied|].
  exact (proj2 (build_revision_layers_applied_first 5 diamond_A_applied
                  true true _ diamond_layers_applied)).
Defined.



(** [A] is recorded and its script passes: the insert is refused. *)
Lemma recorded_A_again :
  let after := apply_revision run_statements diamond_A_recorded (rev "A" []) in
  after.2 = Raise (IntegrityError "A")
  ∧ committed (psql_engine after.1)
    = committed (psql_engine diamond_A_recorded)
  ∧ applied_revisions after.1 = applied_revisions diamond_A_recorded.
Proof.
  cbn zeta.
  assert (Hrun : apply_revision run_statements diamond_A_recorded
                   (rev "A" [])
                 = ((apply_revision run_statements diamond_A_recorded
                       (rev "A" [])).1,
                    Raise (IntegrityError "A")))
    by (vm_compute; reflexivity).
  destruct (apply_revision_again_fails run_statements diamond_A_recorded
              (rev "A" []) {["A"]}
              (apply_revision run_statements diamond_A_recorded
                 (rev "A" [])).1
              (Raise (IntegrityError "A")))
    as (_ & Hcommitted & Happlied).
  - left. reflexivity.
  - reflexivity.
  - vm_compute. reflexivity.
  - set_solver.
  - set_solver.
  - intros _. exists {["A"]}. split; [vm_compute; reflexivity|set_solver].
  - exact Hrun.
  - split; [vm_compute; reflexivity|]. split; [exact Hcommitted|exact Happlied].
Defined.

(** [A] is applied and its script fails on the second run: the error
    raised is the script's, not the primary key's. *)
Lemma applied_A_again_script_error :
  let after := apply_revision run_statements diamond_A_applied (rev "A" []) in
  revision_name (rev "A" []) ∈ applied_revisions diamond_A_applied
  ∧ tracking (committed (psql_engine diamond_A_applied)) = Some {["A"]}
  ∧ dependencies_met diamond_A_applied (rev "A" [])
  ∧ after.2 = Raise (ProgrammingError "relation already exists")
  ∧ after.2 ≠ Raise (IntegrityError "A")
  ∧ journal (psql_engine after.1)
    = [Connect; Begin; Execute (Some "CREATE TABLE A"); Rollback].
Proof.
  cbn zeta. split; [set_solver|]. split; [vm_compute; reflexivity|].
  split; [left; reflexivity|]. split; [vm_compute; reflexivity|].
  split; [vm_compute; discriminate|]. vm_compute. reflexivity.
Qed.



(** Creating [A] again replaces the file of the diamond's [A]; in a
    directory that cannot be written to, the failure is that of the
    write. *)
Lemma create_A_again :
  is_file_name "A" = true
  ∧ create_new_revision writable diamond "A" None None
    = Some (Ok (mkDBMigrator
                  (<["A.yaml" := mkDBRevision "A" ∅ None true None]>
                     (migrations diamond))
                  (psql_engine diamond) (sql_metadata diamond)
                  (applied_revisions diamond),
                mkDBRevision "A" ∅ None true None))
  ∧ create_new_revision read_only diamond "A" None None
    = Some (Raise (OSError "permission denied")).
Proof.
  split; [reflexivity|]. split.
  - apply (proj1 (proj2 (create_new_revision_overwrites writable diamond "A"
                           None None eq_refl))).
    reflexivity.
  - vm_compute. reflexivity.
Defined.

Lemma create_over_existing_file :
  migrations diamond !! "A.yaml" = Some (rev "A" [])
  ∧ is_file_name "A" = true
  ∧ ∃ self',
      create_new_revision writable diamond "A" None None
      = Some (Ok (self', yaml_template "A" ∅))
      ∧ migrations self' !! "A.yaml" = Some (yaml_template "A" ∅)
      ∧ yaml_template "A" ∅ ≠ rev "A" [].
Proof.
  split; [vm_compute; reflexivity|]. split; [reflexivity|].
  eexists. split; [vm_compute; reflexivity|].
  split; [vm_compute; reflexivity|]. vm_compute. discriminate.
Qed.

(** The ancestor layers of [D] in the diamond. *)
Lemma diamond_ancestors_of_D :
  ancestor_layers (load_revisions diamond) "D"
    [ {["A"]}; {["B"; "C"]}; {["D"]} ]
  ∧ get_revision_dependencies 5 diamond_A_applied "D"
    = get_revision_dependencies 5 diamond "D"
  ∧ ∃ layers, ancestor_layers (load_revisions diamond) "D" layers
      ∧ ∀ fuel, size (load_revisions diamond) < fuel →
          get_revision_dependencies fuel diamond "D" = Some (Ok layers).
Proof.
  destruct (get_revision_dependencies_ancestor_layers diamond "D")
    as (Hiff & Hfree & Hends).
  split; [|split].
  - apply Hiff. exists 5. exact diamond_chain.
  - exact (Hfree 5 (psql_engine diamond_A_applied)
             (sql_metadata diamond_A_applied)
             (applied_revisions diamond_A_applied)).
  - apply Hends; [exact diamond_acyclic|].
    intros n. apply closed_reachable.
    + apply (bool_decide_unpack _). vm_compute. reflexivity.
    + vm_compute. eauto.
Defined.

(** [B] depends on the inactive [A]: its chain cannot be built. *)
Lemma inactive_parent_key_error :
  rtc (depends_on (load_revisions inactive_parent)) "B" "A"
  ∧ load_revisions inactive_parent !! "A" = None
  ∧ get_revision_dependencies 3 inactive_parent "B"
    = Some (Raise (KeyError "A"))
  ∧ ∀ fuel layers,
      get_revision_dependencies fuel inactive_parent "B" ≠ Some (Ok layers).
Proof.
  assert (Hreach : rtc (depends_on (load_revisions inactive_parent)) "B" "A").
  { apply rtc_once. exists (rev "B" ["A"]).
    split; [vm_compute; reflexivity|set_solver]. }
  assert (Hmissing : load_revisions inactive_parent !! "A" = None)
    by (vm_compute; reflexivity).
  split; [exact Hreach|]. split; [exact Hmissing|].
  split; [vm_compute; reflexivity|].
  exact (proj2 (get_revision_dependencies_key_error inactive_parent "B" "A"
                  Hreach Hmissing)).
Defined.

End Examples.

(** * More of the migrator *)

(** ** Loading the revision files *)

Section LoadProperties.

Context {Tables : Type}.
Implicit Types self : DBMigrator Tables.

(** The loop of [load_revisions], from any dictionary built so far. *)
Lemma load_fold_lookup (files : list (string * DBRevision)) :
  ∀ (ret_revisions : gmap string DBRevision) k r,
  foldl (λ ret_revisions (file : string * DBRevision),
           let revision : DBRevision := file.2 in
           if active revision
           then <[revision_name revision := revision]> ret_revisions
           else ret_revisions) ret_revisions files !! k = Some r →
  ret_revisions !! k = Some r
  ∨ ∃ path, (path, r) ∈ files ∧ active r = true ∧ revision_name r = k.
Proof.
  induction files as [|[path rf] files IH]; intros acc k r; cbn [foldl];
    [by left|].
  intros [Hacc|(p & Hp & Hr)]%IH.
  - cbn in Hacc. destruct (active rf) eqn:Hactive; [|by left].
    destruct (decide (revision_name rf = k)) as [<-|Hne].
    + rewrite lookup_insert_eq in Hacc. injection Hacc as <-.
      right. exists path. split; [by left|done].
    + rewrite lookup_insert_ne in Hacc by done. by left.
  - right. exists p. split; [by right|done].
Qed.

Lemma load_fold_dom (files : list (string * DBRevision)) :
  ∀ (ret_revisions : gmap string DBRevision) k,
  k ∈ dom (foldl (λ ret_revisions (file : string * DBRevision),
                    let revision : DBRevision := file.2 in
                    if active revision
                    then <[revision_name revision := revision]> ret_revisions
                    else ret_revisions) ret_revisions files)
  ↔ k ∈ dom ret_revisions
    ∨ ∃ path r, (path, r) ∈ files ∧ active r = true ∧ revision_name r = k.
Proof.
  induction files as [|[path rf] files IH]; intros acc k; cbn [foldl].
  - split; [by left|]. intros [?|(p & r & ?%elem_of_nil & _)]; done.
  - rewrite IH. cbn. setoid_rewrite elem_of_cons.
    destruct (active rf) eqn:Hactive.
    + rewrite dom_insert_L, elem_of_union, elem_of_singleton. split.
      * intros [[->|?]|(p & r & ? & ? & ?)];
          [right; exists path, rf; eauto|by left|].
        right. exists p, r. eauto.
      * intros [?|(p & r & [[= -> ->]|?] & ? & ?)];
          [by left; right|by left; left|].
        right. exists p, r. eauto.
    + split.
      * intros [?|(p & r & ? & ? & ?)]; [by left|].
        right. exists p, r. eauto.
      * intros [?|(p & r & [[= -> ->]|?] & ? & ?)];
          [by left|congruence|].
        right. exists p, r. eauto.
Qed.

Lemma load_revisions_lookup self k r :
  load_revisions self !! k = Some r →
  active r = true ∧ revision_name r = k
  ∧ ∃ path, migrations self !! path = Some r.
Proof.
  unfold load_revisions.
  intros [Hempty|(path & Hpath & Hactive & Hname)]%load_fold_lookup.
  - by rewrite lookup_empty in Hempty.
  - split; [done|]. split; [done|]. exists path.
    by apply elem_of_map_to_list.
Qed.

Lemma load_revisions_dom self k :
  k ∈ dom (load_revisions self)
  ↔ ∃ path r, migrations self !! path = Some r ∧ active r = true
              ∧ revision_name r = k.
Proof.
  unfold load_revisions. rewrite load_fold_dom, dom_empty_L.
  setoid_rewrite elem_of_map_to_list. set_solver.
Qed.

(** When the active files that declare [k] all hold [r], [k] is loaded
    as [r]. *)
Lemma load_revisions_the_one self k r path :
  migrations self !! path = Some r → active r = true →
  revision_name r = k →
  (∀ path' r', migrations self !! path' = Some r' → active r' = true →
               revision_name r' = k → r' = r) →
  load_revisions self !! k = Some r.
Proof.
  intros Hpath Hactive Hname Hone.
  assert (Hdom : k ∈ dom (load_revisions self)).
  { apply load_revisions_dom. eauto. }
  apply elem_of_dom in Hdom as [r' Hr']. rewrite Hr'. f_equal.
  destruct (load_revisions_lookup _ _ _ Hr') as (Ha & Hn & path' & Hp').
  by apply (Hone path').
Qed.

(** [load_revisions] returns revisions of active files only, each under
    its own name, and a name is loaded exactly when an active file
    declares it; an inactive file contributes nothing. *)
Theorem load_revisions_active_files self :
  (∀ k r, load_revisions self !! k = Some r →
     active r = true ∧ revision_name r = k
     ∧ ∃ path, migrations self !! path = Some r)
  ∧ (∀ k, k ∈ dom (load_revisions self)
       ↔ ∃ path r, migrations self !! path = Some r ∧ active r = true
                   ∧ revision_name r = k)
  ∧ size (load_revisions self) ≤ size (migrations self).
Proof.
  split; [apply load_revisions_lookup|]. split; [apply load_revisions_dom|].
  unfold load_revisions. rewrite <- (length_map_to_list (migrations self)).
  generalize (map_to_list (migrations self)). intros files.
  assert (∀ acc : gmap string DBRevision,
            size (foldl (λ ret_revisions (file : string * DBRevision),
                           let revision : DBRevision := file.2 in
                           if active revision
                           then <[revision_name revision := revision]>
                                  ret_revisions
                           else ret_revisions) acc files)
            ≤ size acc + length files) as Hsize.
  { induction files as [|[path rf] files IH]; intros acc; cbn [foldl length];
      [lia|].
    etrans; [apply IH|]. cbn. destruct (active rf); [|lia].
    destruct (acc !! revision_name rf) as [old|] eqn:Hold.
    - rewrite map_size_insert_Some by done. lia.
    - rewrite map_size_insert_None by done. lia. }
  specialize (Hsize ∅). by rewrite map_size_empty in Hsize.
Qed.

(** When no two active files declare the same name with different
    contents, every active file is loaded as it is written. *)
Theorem load_revisions_distinct_names self path r :
  (∀ p p' q q', migrations self !! p = Some q →
     migrations self !! p' = Some q' → active q = true → active q' = true →
     revision_name q = revision_name q' → q = q') →
  migrations self !! path = Some r → active r = true →
  load_revisions self !! revision_name r = Some r.
Proof.
  intros Hdistinct Hpath Hactive.
  apply (load_revisions_the_one self _ r path); [done..|].
  intros path' r' Hpath' Hactive' Hname.
  by apply (Hdistinct path' path r' r).
Qed.

(** A revision created by [create_new_revision] under a name without
    a separator, the write having passed, is loaded under its name, as
    the template, when no other file holds an active revision of that
    name; the file that was at its path no longer counts. *)
Theorem create_new_revision_then_load
    (write_fault : string → option exn) self name deps descr :
  is_file_name name = true →
  write_fault (name ++ ".yaml")%string = None →
  (∀ path r, migrations self !! path = Some r →
     path ≠ (name ++ ".yaml")%string → active r = true →
     revision_name r ≠ name) →
  ∃ self',
    create_new_revision write_fault self name deps descr
    = Some (Ok (self', mkDBRevision name (default ∅ deps) None true descr))
    ∧ load_revisions self' !! name
      = Some (mkDBRevision name (default ∅ deps) None true descr).
Proof.
  intros Hname Hwrite Hother.
  set (template := mkDBRevision name (default ∅ deps) None true descr).
  exists (mkDBMigrator
            (<[(name ++ ".yaml")%string := template]> (migrations self))
            (psql_engine self) (sql_metadata self) (applied_revisions self)).
  split.
  { unfold create_new_revision.
    destruct descr; cbn -[is_file_name]; by rewrite Hname, Hwrite. }
  apply (load_revisions_the_one _ _ template (name ++ ".yaml")%string);
    [|done..|]; cbn.
  - apply lookup_insert_eq.
  - intros path' r'.
    destruct (decide (path' = (name ++ ".yaml")%string)) as [->|Hne].
    + rewrite lookup_insert_eq. by intros [= <-].
    + rewrite lookup_insert_ne by done. intros Hr' Hactive' Hname'.
      by destruct (Hother path' r' Hr' Hne Hactive').
Qed.

End LoadProperties.

(** ** More on the layers of [build_revision_layers] *)

(** A layer holds exactly the revisions of the working set that can be
    applied once the layers before it are. *)
Lemma layering_greedy revisions flat layers rest :
  layering revisions flat layers rest →
  ∀ i L, layers !! i = Some L →
  L ≠ ∅
  ∧ ∀ k, k ∈ L ↔ ∃ r, revisions !! k = Some r
                      ∧ can_apply (flat ∪ ⋃ (take i layers)) k r.
Proof.
  induction 1 as [W F rest Hscan|W F NL rest Hscan Hne Hd
                 |W F NL W1 Ls rest Hscan Hne Hd Hl IH]; intros i L Hi;
    destruct (scan_revisions_spec _ _ _ _ Hscan) as [H1 H2].
  - done.
  - destruct i as [|i]; [|done]. injection Hi as <-. split; [done|].
    intros k. cbn. by rewrite union_empty_r_L.
  - destruct i as [|i].
    + injection Hi as <-. split; [done|].
      intros k. cbn. by rewrite union_empty_r_L.
    + destruct (IH i L Hi) as [HL Hk]. split; [done|].
      intros k. rewrite Hk. cbn [take]. rewrite union_list_cons.
      rewrite (assoc_L (∪)). setoid_rewrite H2. split.
      * intros (r & [Hr _] & Hc). eauto.
      * intros (r & Hr & Hc). exists r. split; [|done]. split; [done|].
        intros Hc'. destruct Hc as [_ Hn]. apply Hn.
        apply elem_of_union_l, elem_of_union_r, H1. eauto.
Qed.

(** Names that are not in [flat] and each have a dependency among
    themselves (the members of a cycle) are in no layer. *)
Lemma layering_cycle revisions flat layers rest (P : string → Prop) :
  layering revisions flat layers rest →
  (∀ n, P n → n ∉ flat) →
  (∀ n r, P n → revisions !! n = Some r →
          ∃ d, d ∈ dependencies r ∧ P d) →
  ∀ i L n, layers !! i = Some L → n ∈ L → ¬ P n.
Proof.
  intros Hl Hflat Hknot i.
  induction (lt_wf i) as [i _ IH]. intros L n Hi Hn Hin.
  destruct (layering_member _ _ _ _ Hl i L n Hi Hn) as (r & Hr & _ & Hsub).
  destruct (Hknot n r Hin Hr) as (d & Hd & Hdin).
  apply Hsub in Hd. apply elem_of_union in Hd as [Hd|Hd].
  { by apply (Hflat d). }
  apply elem_of_union_list in Hd as (L' & HL' & Hd).
  apply elem_of_take in HL' as (j & Hj & Hlt).
  by apply (IH j Hlt L' d Hj Hd).
Qed.

(** From a name that leads to [k], itself on a cycle, a dependency
    leads to [k] again. *)
Lemma cycle_successor (R : relation string) k n :
  tc R k k → rtc R n k → ∃ d, R n d ∧ rtc R d k.
Proof.
  intros Hcycle Hn. inversion Hn as [|? d ? Hnd Hdk]; subst; [|eauto].
  inversion Hcycle as [? ? Hkk|? d ? Hkd Hdk]; subst.
  - exists k. split; [done|]. apply rtc_refl.
  - exists d. split; [done|]. by apply tc_rtc.
Qed.

Section MoreLayerProperties.

Context {Tables : Type}.
Implicit Types self : DBMigrator Tables.

(** Whatever the fuel and the flags, the layers returned are the
    applied set, when asked for, and a [layering] of the rest. *)
Lemma build_revision_layers_sound
    fuel self require_all include_applied layers :
  build_revision_layers fuel self require_all include_applied
  = Some (Ok layers) →
  ∃ todo rest,
    layering (pop_applied (load_revisions self) (applied_revisions self))
      (applied_revisions self) todo rest
    ∧ layers
      = (if include_applied then [applied_revisions self] else []) ++ todo
    ∧ (require_all = true → rest = ∅).
Proof.
  intros Hrun. unfold build_revision_layers in Hrun.
  destruct (layer_loop _ _ _ _) as [[rest out]|] eqn:Hloop; [|done].
  apply layer_loop_sound in Hloop as (todo & Hl & ->).
  rewrite (left_id_L ∅ (∪)) in Hl.
  exists todo, rest. split; [done|].
  destruct require_all; cbn [andb] in Hrun.
  - destruct (bool_decide (size rest = 0)) eqn:Hz; cbn in Hrun; [|done].
    injection Hrun as <-. split; [by destruct include_applied|].
    intros _. apply bool_decide_eq_true in Hz.
    by apply map_size_empty_iff.
  - injection Hrun as <-. split; [by destruct include_applied|done].
Qed.

(** Each layer built by the loop is not empty and holds exactly the
    loaded revisions, not applied and not in an earlier layer, whose
    dependencies are all applied or in earlier layers. *)
Theorem build_revision_layers_greedy
    fuel self require_all include_applied layers :
  build_revision_layers fuel self require_all include_applied
  = Some (Ok layers) →
  ∃ todo,
    layers
    = (if include_applied then [applied_revisions self] else []) ++ todo
    ∧ ∀ i L, todo !! i = Some L →
        let before := applied_revisions self ∪ ⋃ (take i todo) in
        L ≠ ∅
        ∧ ∀ k, k ∈ L ↔ ∃ r, load_revisions self !! k = Some r
                            ∧ (k ∉ before)
                            ∧ dependencies r ⊆ before.
Proof.
  intros (todo & rest & Hl & -> & _)%build_revision_layers_sound.
  exists todo. split; [done|]. intros i L Hi. cbn zeta.
  destruct (layering_greedy _ _ _ _ Hl i L Hi) as [HL Hk].
  split; [done|]. intros k. rewrite Hk. unfold can_apply.
  setoid_rewrite pop_applied_lookup. set_solver.
Qed.

(** No revision waits longer than it must: whether the applied set
    leads the list or not, a revision of a layer after the first one
    built has a dependency in the layer built just before. *)
Theorem build_revision_layers_no_delay
    fuel self require_all include_applied layers :
  build_revision_layers fuel self require_all include_applied
  = Some (Ok layers) →
  ∃ todo,
    layers
    = (if include_applied then [applied_revisions self] else []) ++ todo
    ∧ ∀ i L k, todo !! S i = Some L → k ∈ L →
        ∃ r d L', load_revisions self !! k = Some r ∧ d ∈ dependencies r
                  ∧ todo !! i = Some L' ∧ d ∈ L'.
Proof.
  intros (todo & rest & Hl & -> & _)%build_revision_layers_sound.
  exists todo. split; [done|]. intros i L k Hi Hk.
  destruct (lookup_lt_is_Some_2 todo i) as [L' Hi'].
  { apply lookup_lt_Some in Hi. lia. }
  destruct (layering_greedy _ _ _ _ Hl (S i) L Hi) as [_ HL].
  destruct (layering_greedy _ _ _ _ Hl i L' Hi') as [_ HL'].
  apply HL in Hk as (r & Hr & Hsub & Hnin).
  rewrite (take_S_r _ _ _ Hi'), union_list_app_L in Hsub, Hnin.
  cbn in Hsub, Hnin. rewrite union_empty_r_L in Hsub, Hnin.
  assert (Hnot : ¬ dependencies r
                   ⊆ applied_revisions self ∪ ⋃ (take i todo)).
  { intros Hearly. apply Hnin.
    apply elem_of_union_r, elem_of_union_r, HL'.
    exists r. split; [done|]. split; [done|]. set_solver. }
  apply not_subseteq_witness in Hnot as (d & Hd & Hdn).
  exists r, d, L'. apply pop_applied_lookup in Hr as [Hr _].
  split; [done|]. split; [done|]. split; [done|].
  apply Hsub in Hd. set_solver.
Qed.

(** The revisions of a dependency cycle none of whose members is
    applied are never put in a layer; when [require_all] is set the
    call raises and reports them. *)
Theorem build_revision_layers_cycle self k :
  tc (depends_on (load_revisions self)) k k →
  (∀ n, rtc (depends_on (load_revisions self)) k n →
        n ∉ applied_revisions self) →
  (∀ fuel require_all include_applied layers,
     build_revision_layers fuel self require_all include_applied
     = Some (Ok layers) → ∀ L, L ∈ layers → k ∉ L)
  ∧ ∀ fuel include_applied, size (load_revisions self) < fuel →
      ∃ keys,
        build_revision_layers fuel self true include_applied
        = Some (Raise (Exception (could_not_resolve keys)))
        ∧ k ∈ keys.
Proof.
  intros Hcycle Hfree.
  set (P := λ n, rtc (depends_on (load_revisions self)) k n
                 ∧ rtc (depends_on (load_revisions self)) n k).
  assert (Hno : ∀ todo rest,
            layering (pop_applied (load_revisions self)
                        (applied_revisions self))
              (applied_revisions self) todo rest →
            ∀ L, L ∈ todo → k ∉ L).
  { intros todo rest Hl L [i Hi]%list_elem_of_lookup Hk.
    apply (layering_cycle _ _ _ _ P Hl) with (i := i) (L := L) (n := k);
      [| |done..|by split].
    - intros n [Hn _]. by apply Hfree.
    - intros n r [Hkn Hnk] [Hr _]%pop_applied_lookup.
      destruct (cycle_successor _ k n Hcycle Hnk) as (d & Hnd & Hdk).
      exists d. destruct Hnd as (r' & Hr' & Hd).
      assert (r' = r) as -> by congruence.
      split; [done|]. split; [|done].
      eapply rtc_r; [done|]. by exists r. }
  split.
  - intros fuel require_all include_applied layers
      (todo & rest & Hl & -> & _)%build_revision_layers_sound L HL.
    apply elem_of_app in HL as [HL|HL]; [|by eapply Hno].
    destruct include_applied; [|by apply elem_of_nil in HL].
    apply list_elem_of_singleton in HL as ->. by apply Hfree.
  - intros fuel include_applied Hfuel.
    destruct (build_revision_layers_layering self)
      as (todo & rest & Hl & Hrun).
    destruct (cycle_successor _ k k Hcycle (rtc_refl _ _))
      as (d & (r & Hr & _) & _).
    assert (Hrest : rest !! k = Some r).
    { apply (layering_rest _ _ _ _ Hl). split.
      - apply pop_applied_lookup. split; [done|]. by apply Hfree.
      - intros (L & HL & Hk)%elem_of_union_list. by apply (Hno _ _ Hl L). }
    exists (dom rest). rewrite Hrun by done. split.
    + rewrite bool_decide_eq_false_2; [done|].
      intros Hz. apply map_size_empty_iff in Hz. subst.
      by rewrite lookup_empty in Hrest.
    + by apply (elem_of_dom_2 rest k r).
Qed.

End MoreLayerProperties.

(** ** More on the dependency chain *)

Section MoreChainProperties.

Variable revisions : gmap string DBRevision.

(** The layer [i] steps outward holds the names at the end of a path of
    [i] declared dependencies from the first layer, and no path is as
    long as there are layers. *)
Lemma outward_layers_distance layer outward :
  outward_layers revisions layer outward →
  (∀ i L, outward !! i = Some L →
     ∀ n, n ∈ L ↔ ∃ x, x ∈ layer ∧ nsteps (depends_on revisions) i x n)
  ∧ ∀ x n, x ∈ layer →
      ¬ nsteps (depends_on revisions) (length outward) x n.
Proof.
  induction 1 as [layer [Hall Hstop]|layer next rest [Hall Hnext] Hne Hrest
                                      [IH1 IH2]].
  - split.
    + intros [|i] L Hi n; [|done]. injection Hi as <-. split.
      * intros Hn. exists n. split; [done|]. constructor.
      * intros (x & Hx & Hxn). by inversion Hxn; subst.
    + intros x n Hx Hxn. cbn in Hxn.
      inversion Hxn as [|? ? y ? (r & Hr & Hy) Hrest']; subst.
      apply (not_elem_of_empty (C := gset string) y). apply Hstop. eauto.
  - split.
    + intros [|i] L Hi n.
      * injection Hi as <-. split.
        -- intros Hn. exists n. split; [done|]. constructor.
        -- intros (x & Hx & Hxn). by inversion Hxn; subst.
      * rewrite (IH1 i L Hi n). split.
        -- intros (y & Hy & Hyn). apply Hnext in Hy as (x & r & Hx & Hr & Hy).
           exists x. split; [done|]. eapply nsteps_l; [|done]. by exists r.
        -- intros (x & Hx & Hxn).
           inversion Hxn as [|? ? y ? (r & Hr & Hy) Hyn]; subst.
           exists y. split; [|done]. apply Hnext. eauto.
    + intros x n Hx Hxn. cbn in Hxn.
      inversion Hxn as [|? ? y ? (r & Hr & Hy) Hyn]; subst.
      apply (IH2 y n); [|done]. apply Hnext. eauto.
Qed.

(** The shape of outward layers: none is empty past a non-empty first
    one, all their names are loaded, the dependencies of a layer make
    the next, and the last has none. *)
Lemma outward_layers_shape layer outward :
  outward_layers revisions layer outward →
  head outward = Some layer
  ∧ (∀ i L k, outward !! i = Some L → k ∈ L →
       ∃ r, revisions !! k = Some r
            ∧ ∀ d, d ∈ dependencies r →
                ∃ L', outward !! S i = Some L' ∧ d ∈ L')
  ∧ (layer ≠ ∅ → ∀ L, L ∈ outward → L ≠ ∅).
Proof.
  induction 1 as [layer [Hall Hstop]|layer next rest [Hall Hnext] Hne Hrest
                                      (IH1 & IH2 & IH3)].
  - split; [done|]. split.
    + intros [|i] L k Hi Hk; [|done]. injection Hi as <-.
      destruct (Hall k Hk) as [r Hr]. exists r. split; [done|].
      intros d Hd. exfalso.
      apply (not_elem_of_empty (C := gset string) d). apply Hstop. eauto.
    + intros Hlayer L ->%list_elem_of_singleton. done.
  - split; [done|]. split.
    + intros [|i] L k Hi Hk.
      * injection Hi as <-. destruct (Hall k Hk) as [r Hr].
        exists r. split; [done|]. intros d Hd. exists next. split.
        -- cbn. by destruct rest; [inversion Hrest|injection IH1 as ->].
        -- apply Hnext. eauto.
      * apply (IH2 i L k Hi Hk).
    + intros Hlayer L [->|HL]%elem_of_cons; [done|]. by apply IH3.
Qed.

(** A layer with a name that leads to a cycle never ends the loop: it
    runs out of fuel, or raises on a name that is not loaded. *)
Lemma chain_loop_cycle fuel :
  ∀ pre layer x c, x ∈ layer →
  rtc (depends_on revisions) x c → tc (depends_on revisions) c c →
  match chain_loop fuel revisions (pre ++ [layer]) with
  | None => True
  | Some (Raise e) =>
      ∃ k n, e = KeyError k ∧ revisions !! k = None ∧ n ∈ layer
             ∧ rtc (depends_on revisions) n k
  | Some (Ok _) => False
  end.
Proof.
  induction fuel as [|fuel IH]; intros pre layer x c Hx Hxc Hcycle; [done|].
  cbn [chain_loop]. rewrite last_snoc. cbn.
  pose proof (dependency_union_spec revisions layer) as Hspec.
  destruct (dependency_union revisions layer) as [next|e].
  - destruct Hspec as [Hall Hnext].
    destruct (cycle_successor _ c x Hcycle Hxc) as (d & (r & Hr & Hd) & Hdc).
    assert (Hin : d ∈ next) by (apply Hnext; eauto).
    rewrite decide_False.
    2:{ intros Hz. apply size_empty_iff in Hz. set_solver. }
    specialize (IH (pre ++ [layer]) next d c Hin Hdc Hcycle).
    destruct (chain_loop fuel revisions _) as [[out|e]|]; [done| |done].
    destruct IH as (k & n & -> & Hk & Hn & Hnk).
    apply Hnext in Hn as (m & rm & Hm & Hrm & Hn).
    exists k, m. split; [done|]. split; [done|]. split; [done|].
    eapply rtc_l; [|done]. by exists rm.
  - destruct Hspec as (k & -> & Hk & Hnone). exists k, k.
    split; [done|]. split; [done|]. split; [done|]. apply rtc_refl.
Qed.

End MoreChainProperties.

Section MoreDependencyChain.

Context {Tables : Type}.
Implicit Types self : DBMigrator Tables.

Lemma get_revision_dependencies_outward fuel self name layers :
  get_revision_dependencies fuel self name = Some (Ok layers) →
  ∃ outward, outward_layers (load_revisions self) {[name]} outward
             ∧ layers = reverse outward.
Proof.
  unfold get_revision_dependencies. intros Hrun.
  destruct (chain_loop fuel _ _) as [[out|e]|] eqn:Hloop; [|done..].
  injection Hrun as <-.
  apply (chain_loop_outward _ fuel []) in Hloop as (outward & Hout & ->).
  by exists outward.
Qed.

(** Counting layers from the target, which is the last one returned,
    the layer [i] steps before it holds exactly the names reached from
    the target by a path of [i] declared dependencies; the number of
    layers is one more than the length of the longest such path. *)
Theorem get_revision_dependencies_by_distance fuel self name layers :
  get_revision_dependencies fuel self name = Some (Ok layers) →
  (∀ i L, reverse layers !! i = Some L →
     ∀ n, n ∈ L ↔ nsteps (depends_on (load_revisions self)) i name n)
  ∧ (∀ i, i < length layers →
       ∃ n, nsteps (depends_on (load_revisions self)) i name n)
  ∧ ∀ n, ¬ nsteps (depends_on (load_revisions self)) (length layers) name n.
Proof.
  intros (outward & Hout & ->)%get_revision_dependencies_outward.
  rewrite reverse_involutive, length_reverse.
  destruct (outward_layers_distance _ _ _ Hout) as [Hdist Hlast].
  destruct (outward_layers_shape _ _ _ Hout) as (_ & _ & Hne).
  assert (Hat : ∀ i L, outward !! i = Some L →
            ∀ n, n ∈ L ↔ nsteps (depends_on (load_revisions self)) i name n).
  { intros i L Hi n. rewrite (Hdist i L Hi). split.
    - by intros (x & ->%elem_of_singleton & Hx).
    - intros Hn. exists name. split; [by apply elem_of_singleton|done]. }
  split; [done|]. split.
  - intros i [L Hi]%lookup_lt_is_Some_2.
    destruct (set_choose_L L) as [n Hn].
    + apply Hne; [|by apply list_elem_of_lookup; eauto].
      apply non_empty_singleton_L.
    + exists n. by apply (Hat i L Hi).
  - intros n. apply Hlast. by apply elem_of_singleton.
Qed.

(** The layers returned end with the target alone and none is empty;
    every name in them is loaded; the first layer holds revisions
    without dependencies, and the dependencies of a revision in a later
    layer all lie in the layer just before it. *)
Theorem get_revision_dependencies_shape fuel self name layers :
  get_revision_dependencies fuel self name = Some (Ok layers) →
  last layers = Some {[name]}
  ∧ (∀ L, L ∈ layers → L ≠ ∅)
  ∧ (∀ i L k, layers !! i = Some L → k ∈ L →
       ∃ r, load_revisions self !! k = Some r
            ∧ match i with
              | 0 => dependencies r = ∅
              | S j => ∃ L', layers !! j = Some L' ∧ dependencies r ⊆ L'
              end).
Proof.
  intros (outward & Hout & ->)%get_revision_dependencies_outward.
  destruct (outward_layers_shape _ _ _ Hout) as (Hhead & Hdeps & Hne).
  split; [by rewrite last_reverse|]. split.
  - intros L HL. rewrite elem_of_reverse in HL. apply Hne; [|done].
    apply non_empty_singleton_L.
  - intros i L k Hi Hk.
    assert (Hlen : i < length outward).
    { apply lookup_lt_Some in Hi. by rewrite length_reverse in Hi. }
    rewrite reverse_lookup in Hi by done.
    destruct (Hdeps _ L k Hi Hk) as (r & Hr & Hnext).
    exists r. split; [done|]. destruct i as [|j].
    + apply set_eq. intros d. split; [|by intros ?%not_elem_of_empty].
      intros (L' & HL' & _)%Hnext. apply lookup_lt_Some in HL'. lia.
    + destruct (lookup_lt_is_Some_2 (reverse outward) j) as [L' HL'].
      { rewrite length_reverse. lia. }
      exists L'. split; [done|]. intros d (L'' & HL'' & Hd)%Hnext.
      rewrite reverse_lookup in HL' by lia.
      replace (S (length outward - S (S j))) with (length outward - S j)
        in HL'' by lia.
      congruence.
Qed.

(** [get_revision_dependencies] does not detect cycles: when the target
    leads to a revision on a dependency cycle, no fuel makes it return
    layers, and when every name reached from the target is loaded the
    loop never ends. *)
Theorem get_revision_dependencies_cycle self name c :
  rtc (depends_on (load_revisions self)) name c →
  tc (depends_on (load_revisions self)) c c →
  (∀ fuel layers,
     get_revision_dependencies fuel self name ≠ Some (Ok layers))
  ∧ ((∀ n, rtc (depends_on (load_revisions self)) name n →
           is_Some (load_revisions self !! n)) →
     ∀ fuel, get_revision_dependencies fuel self name = None).
Proof.
  intros Hreach Hcycle.
  assert (Hloop : ∀ fuel,
            match chain_loop fuel (load_revisions self) [ {[name]} ] with
            | None => True
            | Some (Raise e) =>
                ∃ k, e = KeyError k ∧ load_revisions self !! k = None
                     ∧ rtc (depends_on (load_revisions self)) name k
            | Some (Ok _) => False
            end).
  { intros fuel.
    pose proof (chain_loop_cycle (load_revisions self) fuel [] {[name]}
                  name c) as Hc.
    cbn [app] in Hc. specialize (Hc ltac:(set_solver) Hreach Hcycle).
    destruct (chain_loop fuel _ _) as [[out|e]|]; [done| |done].
    destruct Hc as (k & n & -> & Hk & ->%elem_of_singleton & Hnk). eauto. }
  split.
  - intros fuel layers Hrun. specialize (Hloop fuel).
    unfold get_revision_dependencies in Hrun.
    by destruct (chain_loop fuel _ _) as [[out|e]|].
  - intros Hloaded fuel. specialize (Hloop fuel).
    unfold get_revision_dependencies.
    destruct (chain_loop fuel _ _) as [[out|e]|]; [done| |done].
    destruct Hloop as (k & -> & Hk & Hnk).
    destruct (Hloaded k Hnk). congruence.
Qed.

End MoreDependencyChain.

(** ** More on applying a revision *)

Section MoreApplyProperties.

Context {Tables : Type}.
Variable execute_script :
  option string → Contents Tables → Contents Tables * option exn.
Implicit Types self : DBMigrator Tables.

(** The guard either stops the call, leaving the migrator as it is, or
    lets the revision through. *)
Lemma apply_revision_guard self revision :
  (apply_revision execute_script self revision
   = (self, Raise (Exception (dependencies_not_met (revision_name revision)
                                (dependencies revision))))
   ∧ ¬ dependencies_met self revision)
  ∨ dependencies_met self revision.
Proof.
  unfold dependencies_met.
  destruct (decide (dependencies revision = ∅)) as [|Hne]; [by right; left|].
  destruct (decide (dependencies revision ⊆ applied_revisions self))
    as [|Hmissing]; [by right; right|].
  left. split; [|by intros [?|?]].
  unfold apply_revision. by rewrite decide_True.
Qed.

(** A call that returns went through the whole transaction. *)
Lemma apply_revision_returns self revision self' :
  apply_revision execute_script self revision = (self', Ok ()) →
  let db := psql_engine self in
  let name := revision_name revision in
  dependencies_met self revision
  ∧ connect_fault db = None
  ∧ commit_fault db = None
  ∧ ∃ work rows events,
      execute_script (sql_text revision) (committed db) = (work, None)
      ∧ tracking work = Some rows ∧ (name ∉ rows)
      ∧ self'
        = mkDBMigrator (migrations self)
            (mkDatabase None (select_fault db) None
               (mkContents (user_tables work) (Some ({[name]} ∪ rows)))
               (journal db ++ events))
            true ({[name]} ∪ applied_revisions self).
Proof.
  intros Hrun. cbn zeta.
  destruct (apply_revision_guard self revision) as [[Hstop _]|Hmet];
    [congruence|].
  split; [done|].
  rewrite (apply_revision_cases execute_script self revision Hmet) in Hrun.
  cbn zeta in Hrun.
  destruct (connect_fault (psql_engine self)) as [e|] eqn:Hfault; [done|].
  destruct (match tracking (committed (psql_engine self)) with
            | Some _ => true
            | None => sql_metadata self
            end); [|done].
  destruct (execute_script (sql_text revision) (committed (psql_engine self)))
    as [work [e|]]; [done|].
  unfold insert_revision in Hrun.
  destruct (tracking work) as [rows|] eqn:Hrows; [|done].
  destruct (decide (revision_name revision ∈ rows)); [done|].
  destruct (commit_fault (psql_engine self)) as [e|] eqn:Hcommit; [done|].
  injection Hrun as <-. split; [done|]. split; [done|].
  exists work, rows. eexists. split; [done|]. split; [done|].
  split; [done|]. reflexivity.
Qed.

(** Past the guard, on a reachable database whose tracking table is
    known, a script that passes and leaves the name out of the table
    is committed when the commit passes. *)
Lemma apply_revision_succeeds self revision work rows :
  let db := psql_engine self in
  let name := revision_name revision in
  dependencies_met self revision →
  connect_fault db = None → commit_fault db = None →
  sql_metadata self = true ∨ is_Some (tracking (committed db)) →
  execute_script (sql_text revision) (committed db) = (work, None) →
  tracking work = Some rows → name ∉ rows →
  ∃ events,
    apply_revision execute_script self revision
    = (mkDBMigrator (migrations self)
         (mkDatabase None (select_fault db) None
            (mkContents (user_tables work) (Some ({[name]} ∪ rows)))
            (journal db ++ events))
         true ({[name]} ∪ applied_revisions self), Ok ()).
Proof.
  cbn zeta. intros Hmet Hfault Hcommit Hknown Hscript Hrows Hnew.
  rewrite (apply_revision_cases execute_script self revision Hmet).
  cbn zeta. rewrite Hfault, Hscript, Hcommit.
  unfold insert_revision. rewrite Hrows, decide_False by done.
  assert (match tracking (committed (psql_engine self)) with
          | Some _ => true
          | None => sql_metadata self
          end = true) as ->.
  { destruct Hknown as [Hknown|[? Hknown]]; rewrite Hknown; [|done].
    by destruct (tracking (committed (psql_engine self))). }
  eexists. reflexivity.
Qed.

(** A call that raises leaves the committed contents and the files as
    they were and the applied set with at most the name more, and past
    the guard its exception comes from the database. *)
Lemma apply_revision_raises self revision self' e :
  apply_revision execute_script self revision = (self', Raise e) →
  let db := psql_engine self in
  let name := revision_name revision in
  (∃ events known applied,
     self'
     = mkDBMigrator (migrations self)
         (mkDatabase (connect_fault db) (select_fault db) (commit_fault db)
            (committed db) (journal db ++ events))
         known applied
     ∧ (applied = applied_revisions self
        ∨ (applied = {[name]} ∪ applied_revisions self
           ∧ commit_fault db = Some e
           ∧ ∃ work rows,
               execute_script (sql_text revision) (committed db)
               = (work, None)
               ∧ tracking work = Some rows ∧ (name ∉ rows))))
  ∧ (dependencies_met self revision →
     connect_fault db = Some e
     ∨ e = NoSuchTableError
     ∨ (execute_script (sql_text revision) (committed db)).2 = Some e
     ∨ (∃ key, e = IntegrityError key)
     ∨ (∃ detail, e = ProgrammingError detail)
     ∨ commit_fault db = Some e).
Proof.
  intros Hrun. cbn zeta.
  destruct (apply_revision_guard self revision) as [[Hstop Hnot]|Hmet].
  { rewrite Hstop in Hrun. injection Hrun as <- <-. split; [|done].
    exists [], (sql_metadata self), (applied_revisions self).
    rewrite app_nil_r. split; [by destruct self as [? [] ? ?]|by left]. }
  rewrite (apply_revision_cases execute_script self revision Hmet) in Hrun.
  cbn zeta in Hrun.
  destruct (connect_fault (psql_engine self)) as [e0|] eqn:Hfault.
  { injection Hrun as <- <-. split; [|by left].
    eexists _, _, _. split; [reflexivity|by left]. }
  destruct (match tracking (committed (psql_engine self)) with
            | Some _ => true
            | None => sql_metadata self
            end).
  2:{ injection Hrun as <- <-. split; [|by right; left].
      eexists _, _, _. split; [reflexivity|by left]. }
  destruct (execute_script (sql_text revision) (committed (psql_engine self)))
    as [work [e0|]] eqn:Hscript.
  { injection Hrun as <- <-. split; [|by right; right; left].
    eexists _, _, _. split; [reflexivity|by left]. }
  unfold insert_revision in Hrun.
  destruct (tracking work) as [rows|] eqn:Hrows.
  2:{ injection Hrun as <- <-. split; [|right; right; right; right; left; eauto].
      eexists _, _, _. split; [reflexivity|by left]. }
  destruct (decide (revision_name revision ∈ rows)) as [|Hnew].
  { injection Hrun as <- <-. split; [|right; right; right; left; eauto].
    eexists _, _, _. split; [reflexivity|by left]. }
  destruct (commit_fault (psql_engine self)) as [e0|] eqn:Hcommit; [|done].
  injection Hrun as <- <-. split; [|by do 5 right].
  eexists _, _, _. split; [reflexivity|]. right.
  split; [done|]. split; [done|]. eauto.
Qed.

(** Whatever happens, [apply_revision] keeps every name of the applied
    set and adds at most the name of the revision; it does not touch
    the revision files, and its calls to the database are added to the
    journal. *)
Theorem apply_revision_never_forgets self revision :
  let after := (apply_revision execute_script self revision).1 in
  applied_revisions self ⊆ applied_revisions after
  ∧ applied_revisions after
    ⊆ {[revision_name revision]} ∪ applied_revisions self
  ∧ migrations after = migrations self
  ∧ ∃ events,
      journal (psql_engine after) = journal (psql_engine self) ++ events.
Proof.
  cbn zeta.
  destruct (apply_revision execute_script self revision) as [self' [[]|e]]
    eqn:Hrun.
  - apply apply_revision_returns in Hrun
      as (_ & _ & _ & work & rows & events & _ & _ & _ & ->). cbn.
    split; [set_solver|]. split; [set_solver|]. split; [done|]. eauto.
  - apply apply_revision_raises in Hrun
      as [(events & known & applied & -> & Happlied) _]. cbn.
    split; [set_solver|]. split; [set_solver|]. split; [done|]. eauto.
Qed.

(** After a call that returns, the tracking table holds the name of the
    revision: reading the applied revisions again gives it back, and
    the applied set of the migrator holds it too. *)
Theorem apply_revision_read_back self revision self' :
  apply_revision execute_script self revision = (self', Ok ()) →
  select_fault (psql_engine self) = None →
  revision_name revision ∈ applied_revisions self'
  ∧ ∃ rows, (get_applied_revisions self').2 = Ok rows
            ∧ revision_name revision ∈ rows.
Proof.
  intros (_ & _ & _ & work & rows & events & _ & _ & _ & ->)
    %apply_revision_returns Hselect.
  split; [cbn; set_solver|].
  exists ({[revision_name revision]} ∪ rows). split; [|set_solver].
  rewrite get_applied_revisions_outcome, read_revisions_cases. cbn.
  rewrite Hselect. f_equal. apply set_eq. intros x.
  by rewrite elem_of_list_to_set, elem_of_elements.
Qed.

(** When the applied set of the migrator is what the tracking table
    holds and the script leaves the tracking table alone, this is still
    so after [apply_revision] returns, and after it raises unless the
    failure is that of the commit: the name is then in the applied set
    and not in the tracking table. *)
Theorem apply_revision_keeps_cache_coherent self revision :
  cache_coherent self →
  tracking (execute_script (sql_text revision)
              (committed (psql_engine self))).1
  = tracking (committed (psql_engine self)) →
  let after := apply_revision execute_script self revision in
  (commit_fault (psql_engine self) = None → cache_coherent after.1)
  ∧ (after.2 = Ok () → cache_coherent after.1)
  ∧ ∀ e, after.2 = Raise e →
      tracking (committed (psql_engine after.1))
      = Some (applied_revisions self)
      ∧ (applied_revisions after.1 = applied_revisions self
         ∨ (commit_fault (psql_engine self) = Some e
            ∧ (revision_name revision ∉ applied_revisions self)
            ∧ applied_revisions after.1
              = {[revision_name revision]} ∪ applied_revisions self)).
Proof.
  unfold cache_coherent. intros Hcoherent Hscript. cbn zeta.
  destruct (apply_revision execute_script self revision) as [self' [[]|e]]
    eqn:Hrun.
  - apply apply_revision_returns in Hrun
      as (_ & _ & _ & work & rows & events & Hwork & Hrows & _ & ->). cbn.
    rewrite Hwork in Hscript. cbn in Hscript.
    assert (rows = applied_revisions self) as -> by congruence.
    split; [done|]. split; [done|]. done.
  - apply apply_revision_raises in Hrun
      as [(events & known & applied & -> & Happlied) _]. cbn.
    destruct Happlied as [->|(-> & Hcommit & work & rows & Hwork & Hrows
                              & Hnew)].
    + split; [done|]. split; [done|]. intros e' [= <-]. split; [done|].
      by left.
    + rewrite Hwork in Hscript. cbn in Hscript.
      assert (rows = applied_revisions self) as -> by congruence.
      split; [by rewrite Hcommit|]. split; [done|].
      intros e' [= <-]. split; [done|]. by right.
Qed.

(** The first run, by a migrator whose [MetaData] is new.  On a
    reachable database without the tracking table a revision cannot be
    applied: the call raises [NoSuchTableError] and runs no script.
    [db_setup] creates the table, empty, and leaves the user's tables
    alone; a revision without dependencies whose script passes is then
    applied, and reading the applied revisions gives its name and no
    other. *)
Theorem first_run self revision work :
  sql_metadata self = false →
  connect_fault (psql_engine self) = None →
  select_fault (psql_engine self) = None →
  commit_fault (psql_engine self) = None →
  tracking (committed (psql_engine self)) = None →
  dependencies revision = ∅ →
  execute_script (sql_text revision)
    (mkContents (user_tables (committed (psql_engine self))) (Some ∅))
  = (work, None) →
  tracking work = Some ∅ →
  let ready := (db_setup self).1 in
  let after := (apply_revision execute_script ready revision).1 in
  apply_revision execute_script self revision
  = (set_engine (record Reflect (psql_engine self)) self,
     Raise NoSuchTableError)
  ∧ (db_setup self).2 = Ok ()
  ∧ committed (psql_engine ready)
    = mkContents (user_tables (committed (psql_engine self))) (Some ∅)
  ∧ (get_applied_revisions ready).2 = Ok ∅
  ∧ (apply_revision execute_script ready revision).2 = Ok ()
  ∧ (get_applied_revisions after).2 = Ok {[revision_name revision]}.
Proof.
  intros Hnew Hfault Hselect Hcommit Habsent Hdeps Hscript Hwork. cbn zeta.
  assert (Hmet : ∀ s : DBMigrator Tables, dependencies_met s revision)
    by (by left).
  assert (Hsetup : db_setup self
    = (mkDBMigrator (migrations self)
         (commit (mkContents (user_tables (committed (psql_engine self)))
                    (Some ∅))
            (record Connect (psql_engine self)))
         true (applied_revisions self), Ok ())).
  { unfold db_setup. cbn. by rewrite Hnew, Hfault, Habsent, Hcommit. }
  rewrite Hsetup. cbn [fst snd].
  split; [|split; [done|split; [done|split]]].
  - rewrite (apply_revision_cases _ _ _ (Hmet self)). cbn zeta.
    unfold set_engine, record. rewrite Hfault, Habsent, Hnew. reflexivity.
  - rewrite get_applied_revisions_outcome, read_revisions_cases. cbn.
    rewrite Hfault, Hselect. f_equal.
  - rewrite (apply_revision_cases _ _ _ (Hmet _)). cbn.
    rewrite Hfault, Hscript, Hcommit. unfold insert_revision. rewrite Hwork.
    rewrite decide_False by set_solver. cbn. split; [done|].
    rewrite get_applied_revisions_outcome, read_revisions_cases. cbn.
    rewrite ?Hfault, ?Hselect. f_equal. apply set_eq. intros x.
    rewrite elem_of_list_to_set, elem_of_elements. set_solver.
Qed.

(** Reading the tracking table changes nothing but the journal and the
    [MetaData]. *)
Lemma read_revisions_keeps self :
  committed (psql_engine (read_revisions self).1)
  = committed (psql_engine self)
  ∧ migrations (read_revisions self).1 = migrations self
  ∧ applied_revisions (read_revisions self).1 = applied_revisions self.
Proof.
  destruct self as [files [cf sf cmf contents log] known applied].
  unfold read_revisions, mbind, db_action_bind, connect,
    _get_table_reflection, select_revisions, set_engine, record. cbn.
  destruct cf, known, sf; cbn;
    destruct (tracking contents) eqn:Htrack; cbn; rewrite ?Htrack; done.
Qed.

(** A migrator that [__init__] builds holds the given files and the
    engine as the read left it; the constructor changes nothing in the
    database.  On a reachable database the migrator is built, and its
    applied set is what the tracking table holds, or empty when there
    is no table.  The constructor raises exactly what the read raises,
    [NoSuchTableError] apart. *)
Theorem init_reads_tracking_table files (engine : Database Tables) :
  let built := __init__ files engine in
  committed built.1 = committed engine
  ∧ (∀ self, built.2 = Ok self →
       migrations self = files ∧ psql_engine self = built.1)
  ∧ (connect_fault engine = None → select_fault engine = None →
     ∃ self, built.2 = Ok self
       ∧ applied_revisions self = default ∅ (tracking (committed engine))
       ∧ (is_Some (tracking (committed engine)) → cache_coherent self))
  ∧ (∀ e, built.2 = Raise e ↔
       e ≠ NoSuchTableError
       ∧ (read_revisions (mkDBMigrator files engine false ∅)).2 = Raise e).
Proof.
  cbn zeta. unfold __init__.
  set (s0 := mkDBMigrator files engine false ∅).
  pose proof (get_applied_revisions_outcome s0) as Hout.
  assert (Hself : (get_applied_revisions s0).1 = (read_revisions s0).1).
  { unfold get_applied_revisions. by destruct (read_revisions s0). }
  pose proof (read_revisions_keeps s0) as (Hkept & _ & _).
  pose proof (read_revisions_cases s0) as Hread.
  destruct (get_applied_revisions s0) as [self0 applied].
  cbn in Hout, Hself, Hkept, Hread. subst self0 applied. cbn.
  split; [done|].
  assert (Hset : ∀ rows : gset string, list_to_set (elements rows) = rows).
  { intros rows. apply set_eq. intros x.
    by rewrite elem_of_list_to_set, elem_of_elements. }
  split; [|split].
  - intros self.
    destruct (read_revisions s0).2 as [rows|e]; cbn.
    + by intros [= <-].
    + destruct e; cbn; intros [= <-]; done.
  - intros Hfault Hselect. rewrite Hread, Hfault.
    destruct (tracking (committed engine)) as [rows|] eqn:Hrows; cbn.
    + rewrite Hselect. cbn. eexists. split; [done|]. cbn.
      split; [by rewrite Hset|]. intros _. unfold cache_coherent. cbn.
      by rewrite Hkept, Hrows, Hset.
    + eexists. split; [done|]. cbn. split; [done|]. by intros [? ?].
  - intros e. destruct (read_revisions s0).2 as [rows|e0]; cbn.
    + split; [done|]. by intros [? ?].
    + destruct e0; cbn; (split; [intros [= <-]|intros [? [= <-]]]); done.
Qed.

End MoreApplyProperties.

(** ** Revisions and their dictionaries *)

Lemma names_hashable (names : list string) :
  forallb hashable (YStr <$> names) = true.
Proof. induction names as [|name names IH]; [done|]. exact IH. Qed.

Lemma names_as_str (names : list string) :
  mapM as_str (YStr <$> names) = Some names.
Proof.
  induction names as [|name names IH]; [done|]. cbn. by rewrite IH.
Qed.

(** Items that all read as strings are strings. *)
Lemma as_str_names (items : list yaml) :
  ∀ names, mapM as_str items = Some names → items = YStr <$> names.
Proof.
  induction items as [|item items IH]; intros names; cbn.
  - by intros [= <-].
  - destruct item; cbn; try done.
    destruct (mapM as_str items) as [names'|]; cbn; [|done].
    intros [= <-]. cbn. f_equal. by apply IH.
Qed.

(** What [to_yaml] writes, [from_yaml] reads back as the same
    revision. *)
Theorem from_yaml_to_yaml revision :
  from_yaml (to_yaml revision) = inr (Some revision).
Proof.
  destruct revision as [name deps sql act descr].
  unfold from_yaml, to_yaml. cbn [revision_name dependencies sql_text active
                                  description].
  rewrite lookup_insert_eq.
  rewrite (lookup_insert_ne _ "revision_name"%string "dependencies"%string)
    by done.
  rewrite lookup_insert_eq. cbn [default from_option id].
  unfold set_of. cbn [iterate]. rewrite names_hashable, names_as_str.
  do 2 rewrite (lookup_insert_ne _ _ "sql_text"%string) by done.
  rewrite lookup_insert_eq.
  do 3 rewrite (lookup_insert_ne _ _ "active"%string) by done.
  rewrite lookup_insert_eq.
  do 4 rewrite (lookup_insert_ne _ _ "description"%string) by done.
  rewrite lookup_insert_eq. cbn.
  assert (Hset : list_to_set (elements deps) = deps).
  { apply set_eq. intros x.
    by rewrite elem_of_list_to_set, elem_of_elements. }
  rewrite Hset. by destruct sql, descr.
Qed.

(** [from_yaml] builds an object exactly from the dictionaries that
    hold [revision_name], [sql_text] and [active] and whose
    [dependencies] can be iterated and yield items that can be hashed.
    Dependencies that are left out, null, a boolean or a number raise
    [TypeError], not an empty set, and so does a list with a list or a
    mapping in it; a string is read as the set of its characters and a
    mapping as the set of its keys; [description] may be left out,
    which is the same as null. *)
Theorem from_yaml_requirements (input_yaml : gmap string yaml) :
  let given := input_yaml !! "dependencies"%string in
  ((∃ built, from_yaml input_yaml = inr built)
   ↔ is_Some (input_yaml !! "revision_name"%string)
     ∧ is_Some (input_yaml !! "sql_text"%string)
     ∧ is_Some (input_yaml !! "active"%string)
     ∧ ∃ deps items, given = Some deps ∧ iterate deps = Some items
                     ∧ forallb hashable items = true)
  ∧ (is_Some (input_yaml !! "revision_name"%string) →
     (given = None ∨ given = Some YNone ∨ (∃ b, given = Some (YBool b))
      ∨ ∃ n, given = Some (YInt n)) →
     from_yaml input_yaml = inl NotIterable)
  ∧ (is_Some (input_yaml !! "revision_name"%string) →
     ∀ items, given = Some (YList items) →
     forallb hashable items = false →
     from_yaml input_yaml = inl Unhashable)
  ∧ (∀ s r, given = Some (YStr s) →
       from_yaml input_yaml = inr (Some r) →
       dependencies r = list_to_set (characters s))
  ∧ (∀ entries r, given = Some (YDict entries) →
       from_yaml input_yaml = inr (Some r) →
       ∀ d, d ∈ dependencies r ↔ YStr d ∈ entries.*1)
  ∧ from_yaml (delete "description"%string input_yaml)
    = from_yaml (<["description"%string := YNone]> input_yaml).
Proof.
  cbn zeta.
  assert (Hbuilt : ∀ name sql act names r,
            (name ← as_str name; deps ← Some names;
             sql ← as_optional_str sql; act ← as_bool act;
             descr ← as_optional_str
                       (default YNone (input_yaml !! "description"%string));
             Some (mkDBRevision name deps sql act descr)) = Some r →
            dependencies r = names).
  { intros name sql act names r. destruct (as_str name); [|done]. cbn.
    destruct (as_optional_str sql); [|done]. cbn.
    destruct (as_bool act); [|done]. cbn.
    destruct (as_optional_str _); [|done]. cbn. by intros [= <-]. }
  split; [|split; [|split; [|split; [|split]]]].
  - unfold from_yaml, set_of. split.
    + intros [built Hrun].
      destruct (input_yaml !! "revision_name"%string); [|done].
      destruct (input_yaml !! "dependencies"%string) as [deps|];
        cbn in Hrun; [|done].
      destruct (iterate deps) as [items|] eqn:Hitems; [|done].
      destruct (forallb hashable items) eqn:Hhash; [|done].
      destruct (input_yaml !! "sql_text"%string); [|done].
      destruct (input_yaml !! "active"%string); [|done].
      eauto 10.
    + intros ([name ->] & [sql ->] & [act ->] & deps & items & -> & Hitems
              & Hhash).
      cbn. rewrite Hitems, Hhash. eauto.
  - unfold from_yaml, set_of.
    intros [name ->] [->|[->|[[b ->]|[n ->]]]]; done.
  - unfold from_yaml, set_of. intros [name ->] items -> Hhash. cbn.
    by rewrite Hhash.
  - unfold from_yaml, set_of. intros s r ->. cbn.
    rewrite names_hashable, names_as_str. cbn.
    destruct (input_yaml !! "revision_name"%string) as [name|]; [|done].
    destruct (input_yaml !! "sql_text"%string) as [sql|]; [|done].
    destruct (input_yaml !! "active"%string) as [act|]; [|done].
    intros [= Hrun]. by apply Hbuilt in Hrun.
  - unfold from_yaml, set_of. intros entries r ->. cbn.
    destruct (input_yaml !! "revision_name"%string) as [name|]; [|done].
    destruct (forallb hashable entries.*1); [|done].
    destruct (mapM as_str entries.*1) as [names|] eqn:Hnames; cbn.
    2:{ destruct (input_yaml !! "sql_text"%string); [|done].
        destruct (input_yaml !! "active"%string); [|done].
        intros [= Hrun]. by destruct (as_str name). }
    destruct (input_yaml !! "sql_text"%string) as [sql|]; [|done].
    destruct (input_yaml !! "active"%string) as [act|]; [|done].
    intros [= Hrun] d. apply Hbuilt in Hrun. rewrite Hrun.
    rewrite (as_str_names _ _ Hnames), elem_of_list_to_set.
    rewrite !list_elem_of_fmap. split.
    + intros Hd. exists d. done.
    + by intros (d' & [= ->] & Hd).
  - unfold from_yaml.
    rewrite !(lookup_delete_ne _ "description"%string) by done.
    rewrite !(lookup_insert_ne _ "description"%string) by done.
    by rewrite lookup_delete_eq, lookup_insert_eq.
Qed.

(** ** Walking the layers *)

Section WalkProperties.

Context {Tables : Type}.
Variable execute_script :
  option string → Contents Tables → Contents Tables * option exn.
Implicit Types self : DBMigrator Tables.
Implicit Types st : DBMigrator Tables * list string.

Section Walk.

Variable revisions : gmap string DBRevision.

Lemma confirm_and_apply_all st k r :
  revisions !! k = Some r →
  confirm_and_apply execute_script true revisions st k
  = (((apply_revision execute_script st.1 r).1, st.2),
     of_result (apply_revision execute_script st.1 r).2).
Proof.
  intros Hr. unfold confirm_and_apply. rewrite Hr.
  by destruct (apply_revision execute_script st.1 r).
Qed.

(** One layer, every dependency of which is applied: each call passes
    the guard. *)
Lemma walk_layer_guard (names : list string) :
  ∀ st,
  (∀ k, k ∈ names →
     ∃ r, revisions !! k = Some r ∧ revision_name r = k
          ∧ dependencies r ⊆ applied_revisions st.1) →
  let walk :=
    for_each (confirm_and_apply execute_script true revisions) names st in
  walk.1.2 = st.2
  ∧ match walk.2 with
    | Returned _ =>
        applied_revisions walk.1.1
        = applied_revisions st.1 ∪ list_to_set names
    | Raised e =>
        ∃ self r, revisions !! revision_name r = Some r
          ∧ dependencies_met self r
          ∧ apply_revision execute_script self r = (walk.1.1, Raise e)
    | _ => False
    end.
Proof.
  induction names as [|k names IH]; intros [self stdin] Hnames; cbn zeta.
  { cbn. split; [done|]. set_solver. }
  destruct (Hnames k) as (r & Hr & Hname & Hdeps); [by left|].
  cbn [for_each]. rewrite (confirm_and_apply_all _ _ _ Hr). cbn [fst snd].
  destruct (apply_revision execute_script self r) as [self' [[]|e]]
    eqn:Happly; cbn [of_result fst snd].
  - pose proof Happly as (_ & _ & _ & work & rows & events & _ & _ & _ & Hself')
      %apply_revision_returns.
    assert (Happlied : applied_revisions self'
                       = {[k]} ∪ applied_revisions self).
    { rewrite Hself'. cbn. by rewrite Hname. }
    specialize (IH (self', stdin)). cbn zeta in IH.
    destruct IH as [Hstdin Hwalk].
    { intros k' Hk'. destruct (Hnames k') as (r' & Hr' & Hname' & Hdeps');
        [by right|].
      exists r'. split; [done|]. split; [done|]. cbn in *. set_solver. }
    split; [done|].
    destruct (for_each _ names (self', stdin)) as [st' [[]|e| |]];
      cbn in *; [|done..].
    rewrite Hwalk, Happlied. set_solver.
  - split; [done|]. exists self, r. rewrite Hname.
    split; [done|]. split; [by right|done].
Qed.

(** The layers, each with its dependencies in [flat] and the layers
    before it. *)
Lemma walk_layers_guard (layers : list (gset string)) :
  ∀ (flat : gset string) st,
  flat ⊆ applied_revisions st.1 →
  (∀ i L k, layers !! i = Some L → k ∈ L →
     ∃ r, revisions !! k = Some r ∧ revision_name r = k
          ∧ dependencies r ⊆ flat ∪ ⋃ (take i layers)) →
  let walk :=
    for_each
      (λ st layer,
         for_each (confirm_and_apply execute_script true revisions)
           (elements layer) st)
      layers st in
  walk.1.2 = st.2
  ∧ match walk.2 with
    | Returned _ =>
        applied_revisions walk.1.1 = applied_revisions st.1 ∪ ⋃ layers
    | Raised e =>
        ∃ self r, revisions !! revision_name r = Some r
          ∧ dependencies_met self r
          ∧ apply_revision execute_script self r = (walk.1.1, Raise e)
    | _ => False
    end.
Proof.
  induction layers as [|L layers IH]; intros flat st Hflat Hlayers;
    cbn zeta.
  { cbn. split; [done|]. set_solver. }
  cbn [for_each].
  destruct (walk_layer_guard (elements L) st) as [Hstdin Hwalk].
  { intros k Hk%elem_of_elements.
    destruct (Hlayers 0 L k eq_refl Hk) as (r & Hr & Hname & Hdeps).
    exists r. split; [done|]. split; [done|]. cbn in Hdeps. set_solver. }
  destruct (for_each _ (elements L) st) as [st1 [[]|e| |]]; cbn in *;
    [|done..].
  specialize (IH (flat ∪ L) st1). cbn zeta in IH.
  destruct IH as [Hstdin' Hwalk'].
  { rewrite Hwalk. intros x. rewrite !elem_of_union, elem_of_list_to_set,
      elem_of_elements. set_solver. }
  { intros i L' k Hi Hk.
    destruct (Hlayers (S i) L' k Hi Hk) as (r & Hr & Hname & Hdeps).
    exists r. split; [done|]. split; [done|].
    cbn [take] in Hdeps. rewrite union_list_cons in Hdeps. set_solver. }
  split; [congruence|].
  destruct (for_each _ layers st1) as [st2 [[]|e| |]]; cbn in *; [|done..].
  rewrite Hwalk', Hwalk. apply set_eq. intros x.
  rewrite !elem_of_union, elem_of_list_to_set, elem_of_elements. set_solver.
Qed.

(** Scripts that pass on the contents they meet: [ready] holds of the
    committed contents before every revision, and the script of a
    revision that is not recorded, its dependencies being so, passes
    on such contents, leaves the tracking table alone, and makes
    contents that are [ready] again once the revision is recorded. *)
Variable ready : Contents Tables → Prop.

Hypothesis scripts_pass :
  ∀ k r contents rows, revisions !! k = Some r →
    ready contents → tracking contents = Some rows →
    k ∉ rows → dependencies r ⊆ rows →
    ∃ work, execute_script (sql_text r) contents = (work, None)
            ∧ tracking work = Some rows
            ∧ ready (mkContents (user_tables work) (Some ({[k]} ∪ rows))).

Lemma walk_layer_applies (names : list string) :
  NoDup names →
  ∀ st,
  walk_ready ready st.1 →
  (∀ k, k ∈ names →
     ∃ r, revisions !! k = Some r ∧ revision_name r = k
          ∧ dependencies r ⊆ applied_revisions st.1
          ∧ (k ∉ applied_revisions st.1)) →
  ∃ self',
    for_each (confirm_and_apply execute_script true revisions) names st
    = ((self', st.2), Returned ())
    ∧ applied_revisions self' = applied_revisions st.1 ∪ list_to_set names
    ∧ walk_ready ready self'
    ∧ migrations self' = migrations st.1.
Proof.
  induction 1 as [|k names Hk Hnodup IH];
    intros [self stdin] Hready Hnames; cbn in *.
  { exists self. split; [done|]. split; [set_solver|]. done. }
  destruct Hready as (Hfault & Hcommit & Hcoherent & Hready).
  destruct (Hnames k) as (r & Hr & Hname & Hdeps & Hnew); [by left|].
  rewrite (confirm_and_apply_all _ _ _ Hr). cbn [fst snd].
  unfold cache_coherent in Hcoherent.
  destruct (scripts_pass k r (committed (psql_engine self))
              (applied_revisions self) Hr Hready Hcoherent Hnew Hdeps)
    as (work & Hscript & Hwork & Hready').
  destruct (apply_revision_succeeds execute_script self r work
              (applied_revisions self)) as [events Happly];
    [by right|done|done|by rewrite Hcoherent; right|done|done
    |by rewrite Hname|].
  rewrite Happly. cbn [fst snd of_result]. rewrite Hname in *.
  set (self1 := mkDBMigrator _ _ _ _).
  destruct (IH (self1, stdin)) as (self' & Hwalk & Happlied & Hready1
                                   & Hfiles).
  - by repeat split.
  - intros k' Hk'.
    destruct (Hnames k') as (r' & Hr' & Hname' & Hdeps' & Hnew');
      [by right|].
    exists r'. split; [done|]. split; [done|]. cbn.
    split; [set_solver|]. assert (k' ≠ k) by (by intros ->). set_solver.
  - exists self'. split; [exact Hwalk|]. split; [|done].
    rewrite Happlied. cbn. set_solver.
Qed.

Lemma walk_layers_apply (layers : list (gset string)) :
  ∀ st,
  walk_ready ready st.1 →
  (∀ i L k, layers !! i = Some L → k ∈ L →
     ∃ r, revisions !! k = Some r ∧ revision_name r = k
          ∧ dependencies r ⊆ applied_revisions st.1 ∪ ⋃ (take i layers)
          ∧ (k ∉ applied_revisions st.1 ∪ ⋃ (take i layers))) →
  ∃ self',
    for_each
      (λ st layer,
         for_each (confirm_and_apply execute_script true revisions)
           (elements layer) st)
      layers st
    = ((self', st.2), Returned ())
    ∧ applied_revisions self' = applied_revisions st.1 ∪ ⋃ layers
    ∧ walk_ready ready self'
    ∧ migrations self' = migrations st.1.
Proof.
  induction layers as [|L layers IH]; intros [self stdin] Hready
    Hlayers; cbn in *.
  { exists self. split; [done|]. split; [set_solver|]. done. }
  destruct (walk_layer_applies (elements L) (NoDup_elements L) (self, stdin))
    as (self1 & Hwalk & Happlied & Hready1 & Hfiles1); [done| |].
  { intros k Hk%elem_of_elements.
    destruct (Hlayers 0 L k eq_refl Hk) as (r & Hr & Hname & Hdeps & Hnew).
    exists r. cbn in *. split; [done|]. split; [done|]. set_solver. }
  rewrite Hwalk. cbn in Happlied, Hfiles1.
  assert (Hunion : applied_revisions self1 = applied_revisions self ∪ L).
  { rewrite Happlied. apply set_eq. intros x.
    rewrite !elem_of_union, elem_of_list_to_set, elem_of_elements. done. }
  destruct (IH (self1, stdin)) as (self' & Hwalk' & Happlied' & Hready'
                                   & Hfiles'); [done| |].
  { intros i L' k Hi Hk.
    destruct (Hlayers (S i) L' k Hi Hk) as (r & Hr & Hname & Hdeps & Hnew).
    exists r. cbn [fst take] in *. rewrite union_list_cons in Hdeps, Hnew.
    rewrite Hunion. split; [done|]. split; [done|]. set_solver. }
  exists self'. cbn in *. split; [done|].
  split; [rewrite Happlied', Hunion; set_solver|].
  split; [done|congruence].
Qed.

End Walk.

(** The walk of [_apply_revision_layers] over the layers that
    [build_revision_layers] returns, without confirmation, makes every
    call to [apply_revision] on a migrator that meets the dependencies
    of the revision: the guard never stops it.  The walk reads nothing
    from the standard input; when it returns, the layers have joined
    the applied set, and when it raises, the exception is that of a call
    which passed the guard. *)
Theorem apply_revision_layers_passes_guard
    fuel self require_all stdin layers :
  build_revision_layers fuel self require_all false = Some (Ok layers) →
  let walk := _apply_revision_layers execute_script self stdin layers true in
  walk.1.2 = stdin
  ∧ match walk.2 with
    | Returned _ =>
        applied_revisions walk.1.1 = applied_revisions self ∪ ⋃ layers
    | Raised e =>
        ∃ self_k r, load_revisions self !! revision_name r = Some r
          ∧ dependencies_met self_k r
          ∧ apply_revision execute_script self_k r = (walk.1.1, Raise e)
    | RaisedEOFError | RaisedSystemExit => False
    end.
Proof.
  intros (todo & rest & Hl & -> & _)%build_revision_layers_sound.
  cbn [app]. unfold _apply_revision_layers.
  apply (walk_layers_guard (load_revisions self) todo
           (applied_revisions self) (self, stdin)); [done|].
  intros i L k Hi Hk.
  destruct (layering_member _ _ _ _ Hl i L k Hi Hk) as (r & Hr & _ & Hdeps).
  apply pop_applied_lookup in Hr as [Hr _].
  destruct (load_revisions_lookup _ _ _ Hr) as (_ & Hname & _).
  exists r. done.
Qed.

(** [apply_all] on a database that can be reached and commits, whose
    tracking table holds the applied set of the migrator: when the
    layers resolve, the operator answers [y] and the script of every
    revision passes on the contents that the revisions before it have
    left, every loaded revision ends applied, in the migrator and in
    the tracking table, and the rest of the input is left unread.
    What the scripts rely on is [ready]: it holds of the contents at
    the start, and the script of a revision that is not recorded, its
    dependencies being so, passes on [ready] contents, leaves the
    tracking table alone and makes contents that are [ready] once the
    revision is recorded. *)
Theorem apply_all_applies_every_revision
    (ready : Contents Tables → Prop) fuel self answer stdin layers :
  build_revision_layers fuel self true false = Some (Ok layers) →
  is_yes answer = true →
  connect_fault (psql_engine self) = None →
  commit_fault (psql_engine self) = None →
  cache_coherent self →
  ready (committed (psql_engine self)) →
  (∀ k r contents rows, load_revisions self !! k = Some r →
     ready contents → tracking contents = Some rows →
     k ∉ rows → dependencies r ⊆ rows →
     ∃ work, execute_script (sql_text r) contents = (work, None)
             ∧ tracking work = Some rows
             ∧ ready (mkContents (user_tables work) (Some ({[k]} ∪ rows)))) →
  ∃ self',
    apply_all execute_script fuel self (answer :: stdin)
    = Some ((self', stdin), Returned ())
    ∧ applied_revisions self'
      = applied_revisions self ∪ dom (load_revisions self)
    ∧ cache_coherent self'
    ∧ ready (committed (psql_engine self'))
    ∧ migrations self' = migrations self.
Proof.
  intros Hrun Hyes Hfault Hcommit Hcoherent Hready Hscripts.
  unfold apply_all. rewrite Hrun, Hyes. cbn [negb].
  apply build_revision_layers_sound in Hrun
    as (todo & rest & Hl & -> & Hrest).
  specialize (Hrest eq_refl). subst rest. cbn [app].
  unfold _apply_revision_layers.
  destruct (walk_layers_apply (load_revisions self) ready Hscripts todo
              (self, stdin))
    as (self' & Hwalk & Happlied & (_ & _ & Hcoh' & Hready') & Hfiles).
  { by repeat split. }
  { intros i L k Hi Hk.
    destruct (layering_greedy _ _ _ _ Hl i L Hi) as [_ HL].
    apply HL in Hk as (r & Hr & Hdeps & Hnew).
    apply pop_applied_lookup in Hr as [Hr _].
    destruct (load_revisions_lookup _ _ _ Hr) as (_ & Hname & _).
    exists r. done. }
  exists self'. split; [by rewrite Hwalk|].
  split; [|split; [done|split; done]].
  rewrite Happlied. cbn. apply set_eq. intros k.
  rewrite !elem_of_union. split.
  - intros [?|(L & HL & Hk)%elem_of_union_list]; [by left|].
    apply list_elem_of_lookup in HL as [i Hi].
    destruct (layering_member _ _ _ _ Hl i L k Hi Hk) as (r & Hr & _).
    apply pop_applied_lookup in Hr as [Hr _].
    right. by apply (elem_of_dom_2 _ k r).
  - intros [?|[r Hr]%elem_of_dom]; [by left|].
    destruct (decide (k ∈ applied_revisions self)); [by left|].
    destruct (decide (k ∈ ⋃ todo)); [by right|]. exfalso.
    assert (Hleft : (∅ : gmap string DBRevision) !! k = Some r).
    { apply (layering_rest _ _ _ _ Hl). split; [|done].
      by apply pop_applied_lookup. }
    by rewrite lookup_empty in Hleft.
Qed.

End WalkProperties.

(** * More of the migrator at work *)

Section MoreExamples.

Local Open Scope string_scope.

(** The files of the diamond, one by one. *)
Lemma diamond_files_cases path r :
  migrations diamond !! path = Some r →
  (path, r) = ("A.yaml", rev "A" [])
  ∨ (path, r) = ("B.yaml", rev "B" ["A"])
  ∨ (path, r) = ("C.yaml", rev "C" ["A"])
  ∨ (path, r) = ("D.yaml", rev "D" ["B"; "C"]).
Proof.
  intros Hpath%elem_of_map_to_list.
  assert (Hfiles : Permutation (map_to_list (migrations diamond))
            [("A.yaml", rev "A" []); ("B.yaml", rev "B" ["A"]);
             ("C.yaml", rev "C" ["A"]); ("D.yaml", rev "D" ["B"; "C"])]).
  { apply map_to_list_to_map. apply (bool_decide_unpack _).
    vm_compute. reflexivity. }
  rewrite Hfiles in Hpath.
  rewrite !elem_of_cons, elem_of_nil in Hpath. tauto.
Qed.

Lemma diamond_B_loaded :
  load_revisions diamond !! "B" = Some (rev "B" ["A"]).
Proof.
  apply (load_revisions_distinct_names diamond "B.yaml" (rev "B" ["A"])).
  - intros p p' q q' Hp Hp' _ _ Hname.
    apply diamond_files_cases in Hp, Hp'.
    destruct Hp as [[= -> ->]|[[= -> ->]|[[= -> ->]|[= -> ->]]]],
      Hp' as [[= -> ->]|[[= -> ->]|[[= -> ->]|[= -> ->]]]];
      first [reflexivity|discriminate Hname].
  - vm_compute. reflexivity.
  - reflexivity.
Defined.

Lemma create_A_then_load :
  ∃ self',
    create_new_revision writable diamond "A" None None
    = Some (Ok (self', mkDBRevision "A" ∅ None true None))
    ∧ load_revisions self' !! "A" = Some (mkDBRevision "A" ∅ None true None).
Proof.
  apply (create_new_revision_then_load writable diamond "A" None None
           eq_refl eq_refl).
  intros path r Hpath Hother _ Hname. apply diamond_files_cases in Hpath.
  destruct Hpath as [[= -> ->]|[[= -> ->]|[[= -> ->]|[= -> ->]]]];
    first [by apply Hother|discriminate Hname].
Defined.

Lemma diamond_layers_greedy :
  ∃ todo,
    [ {["A"]}; {["B"; "C"]}; {["D"]} ] = ([] ++ todo)%list
    ∧ ∀ i L, todo !! i = Some L →
        let before := applied_revisions diamond ∪ ⋃ (take i todo) in
        L ≠ ∅
        ∧ ∀ k, k ∈ L ↔ ∃ r, load_revisions diamond !! k = Some r
                            ∧ (k ∉ before)
                            ∧ dependencies r ⊆ before.
Proof.
  exact (build_revision_layers_greedy 5 diamond true false _ diamond_layers).
Defined.

(** With the applied set [A] at the head of the list, [D] comes in the
    layer built just after that of [B] and [C]. *)
Lemma diamond_D_right_after_B :
  ∃ todo : list (gset string),
    [ {["A"]}; {["B"; "C"]}; {["D"]} ]
    = ([applied_revisions diamond_A_applied] ++ todo)%list
    ∧ ∃ r d L', load_revisions diamond_A_applied !! "D" = Some r
                ∧ d ∈ dependencies r ∧ todo !! 0 = Some L' ∧ d ∈ L'.
Proof.
  destruct (build_revision_layers_no_delay 5 diamond_A_applied true true _
              diamond_layers_applied) as (todo & Htodo & Hdelay).
  exists todo. split; [exact Htodo|].
  apply (Hdelay 0 {["D"]} "D"); [|set_solver].
  cbn in Htodo. by injection Htodo as <-.
Defined.

Lemma knot_cycle : tc (depends_on (load_revisions knot)) "B" "B".
Proof.
  apply tc_l with "C"; [|apply tc_once].
  - exists (rev "B" ["C"]). split; [vm_compute; reflexivity|set_solver].
  - exists (rev "C" ["B"]). split; [vm_compute; reflexivity|set_solver].
Qed.

Lemma knot_never_layered :
  build_revision_layers 5 knot false false = Some (Ok [ {["A"]} ])
  ∧ (∀ fuel require_all include_applied layers,
       build_revision_layers fuel knot require_all include_applied
       = Some (Ok layers) → ∀ L, L ∈ layers → "B" ∉ L)
  ∧ ∀ fuel include_applied, size (load_revisions knot) < fuel →
      ∃ keys,
        build_revision_layers fuel knot true include_applied
        = Some (Raise (Exception (could_not_resolve keys)))
        ∧ "B" ∈ keys.
Proof.
  split; [vm_compute; reflexivity|].
  apply (build_revision_layers_cycle knot "B" knot_cycle).
  intros n _. apply not_elem_of_empty.
Defined.

Lemma diamond_distances_from_D :
  (∀ i (L : gset string),
     reverse [ {["A"]}; {["B"; "C"]}; {["D"]} ] !! i = Some L →
     ∀ n, n ∈ L ↔ nsteps (depends_on (load_revisions diamond)) i "D" n)
  ∧ (∀ i, i < 3 →
       ∃ n, nsteps (depends_on (load_revisions diamond)) i "D" n)
  ∧ ∀ n, ¬ nsteps (depends_on (load_revisions diamond)) 3 "D" n.
Proof.
  exact (get_revision_dependencies_by_distance 5 diamond "D" _ diamond_chain).
Defined.

Lemma diamond_chain_shape :
  last [ {["A"]}; {["B"; "C"]}; {["D"]} ] = Some ({["D"]} : gset string)
  ∧ (∀ L : gset string, L ∈ [ {["A"]}; {["B"; "C"]}; {["D"]} ] → L ≠ ∅)
  ∧ (∀ i (L : gset string) k,
       [ {["A"]}; {["B"; "C"]}; {["D"]} ] !! i = Some L → k ∈ L →
       ∃ r, load_revisions diamond !! k = Some r
            ∧ match i with
              | 0 => dependencies r = ∅
              | S j =>
                  ∃ L' : gset string,
                    [ {["A"]}; {["B"; "C"]}; {["D"]} ] !! j = Some L'
                    ∧ dependencies r ⊆ L'
              end).
Proof.
  exact (get_revision_dependencies_shape 5 diamond "D" _ diamond_chain).
Defined.

Lemma knot_chain_never_ends :
  get_revision_dependencies 50 knot "B" = None
  ∧ ∀ fuel, get_revision_dependencies fuel knot "B" = None.
Proof.
  split; [vm_compute; reflexivity|].
  apply (get_revision_dependencies_cycle knot "B" "B" (rtc_refl _ _)
           knot_cycle).
  intros n Hn. apply closed_reachable with "B"; [| |done].
  - apply (bool_decide_unpack _). vm_compute. reflexivity.
  - vm_compute. eauto.
Defined.

Lemma diamond_A_read_back :
  let after := (apply_revision run_statements diamond (rev "A" [])).1 in
  "A" ∈ applied_revisions after
  ∧ ∃ rows, (get_applied_revisions after).2 = Ok rows ∧ "A" ∈ rows.
Proof.
  cbn zeta.
  apply (apply_revision_read_back run_statements diamond (rev "A" []));
    [vm_compute|]; reflexivity.
Defined.

(** Applying [A] keeps the applied set and the tracking table in step;
    when the connection is lost before the commit, the applied set is
    one name ahead of the table. *)
Lemma diamond_stays_coherent :
  let lost := apply_revision run_statements commit_lost (rev "A" []) in
  cache_coherent diamond
  ∧ cache_coherent (apply_revision run_statements diamond (rev "A" [])).1
  ∧ cache_coherent commit_lost
  ∧ lost.2 = Raise (OperationalError "connection lost")
  ∧ tracking (committed (psql_engine lost.1)) = Some ∅
  ∧ applied_revisions lost.1 = {["A"]}.
Proof.
  cbn zeta.
  assert (Hcoherent : cache_coherent diamond) by (vm_compute; reflexivity).
  split; [exact Hcoherent|]. split.
  - apply (proj1 (apply_revision_keeps_cache_coherent run_statements diamond
                    (rev "A" []) Hcoherent eq_refl)).
    reflexivity.
  - split; [vm_compute; reflexivity|]. split; [vm_compute; reflexivity|].
    split; vm_compute; reflexivity.
Defined.

Lemma first_run_of_A :
  let ready := (db_setup before_setup).1 in
  let after := (apply_revision run_statements ready (rev "A" [])).1 in
  (apply_revision run_statements before_setup (rev "A" [])).2
  = Raise NoSuchTableError
  ∧ (db_setup before_setup).2 = Ok ()
  ∧ (get_applied_revisions ready).2 = Ok ∅
  ∧ (apply_revision run_statements ready (rev "A" [])).2 = Ok ()
  ∧ (get_applied_revisions after).2 = Ok {["A"]}.
Proof.
  cbn zeta.
  destruct (first_run run_statements before_setup (rev "A" [])
              (mkContents ["CREATE TABLE A"] (Some ∅)))
    as (Hbefore & Hsetup & _ & Hempty & Happly & Hread);
    [reflexivity|reflexivity|reflexivity|reflexivity|reflexivity
    |reflexivity|vm_compute; reflexivity|reflexivity|].
  split; [by rewrite Hbefore|]. split; [exact Hsetup|].
  split; [exact Hempty|]. split; [exact Happly|exact Hread].
Defined.

Lemma diamond_walk_passes_guard :
  let walk :=
    _apply_revision_layers run_statements diamond ["n"]
      [ {["A"]}; {["B"; "C"]}; {["D"]} ] true in
  walk.1.2 = ["n"]
  ∧ walk.2 = Returned ()
  ∧ applied_revisions walk.1.1 = {["A"; "B"; "C"; "D"]}.
Proof.
  cbn zeta.
  destruct (apply_revision_layers_passes_guard run_statements 5 diamond true
              ["n"] _ diamond_layers) as [Hstdin Hwalk].
  split; [exact Hstdin|]. split; [vm_compute; reflexivity|].
  vm_compute. reflexivity.
Defined.

(** Dependencies written as one string are read as its characters,
    the two bytes of [é] as one; a list in the list of dependencies,
    or no dependencies at all, is a [TypeError]. *)
Lemma from_yaml_of_a_string :
  let input : gmap string yaml :=
    <["revision_name" := YStr "A"]>
      (<["dependencies" := YStr "aéa"]>
         (<["sql_text" := YNone]> (<["active" := YBool true]> ∅))) in
  ∃ r, from_yaml input = inr (Some r)
       ∧ dependencies r = {["a"; "é"]}
       ∧ from_yaml (<["dependencies" := YList [YStr "a"; YList []]]> input)
         = inl Unhashable
       ∧ from_yaml (delete "dependencies" input) = inl NotIterable.
Proof.
  intros input.
  destruct (from_yaml_requirements input) as (_ & _ & _ & Hstring & _).
  destruct (from_yaml_requirements
              (<["dependencies" := YList [YStr "a"; YList []]]> input))
    as (_ & _ & Hlist & _).
  destruct (from_yaml_requirements (delete "dependencies" input))
    as (_ & Hnone & _).
  exists (mkDBRevision "A" (list_to_set (characters "aéa")) None true None).
  assert (Hread : from_yaml input
                  = inr (Some (mkDBRevision "A"
                                 (list_to_set (characters "aéa")) None true
                                 None))) by (vm_compute; reflexivity).
  split; [exact Hread|]. split; [|split].
  - rewrite (Hstring "aéa" _ eq_refl Hread).
    apply (bool_decide_unpack _). vm_compute. reflexivity.
  - apply (Hlist (ex_intro _ (YStr "A") eq_refl) [YStr "a"; YList []]);
      reflexivity.
  - apply (Hnone (ex_intro _ (YStr "A") eq_refl)). left. reflexivity.
Defined.

(** The contents on which the scripts of the diamond pass: every
    table that was created is that of a recorded revision. *)
Lemma diamond_scripts_pass k r contents rows :
  let ready := λ contents : Contents (list string),
    ∀ name, "CREATE TABLE " ++ name ∈ user_tables contents →
            ∃ rows, tracking contents = Some rows ∧ name ∈ rows in
  load_revisions diamond !! k = Some r →
  ready contents → tracking contents = Some rows → k ∉ rows →
  ∃ work, run_statements (sql_text r) contents = (work, None)
          ∧ tracking work = Some rows
          ∧ ready (mkContents (user_tables work) (Some ({[k]} ∪ rows))).
Proof.
  cbn zeta. intros (_ & Hname & path & Hpath)%load_revisions_lookup
    Hready Hrows Hk.
  assert (Hsql : sql_text r = Some ("CREATE TABLE " ++ k)).
  { apply diamond_files_cases in Hpath. subst k.
    by destruct Hpath as [[= -> ->]|[[= -> ->]|[[= -> ->]|[= -> ->]]]]. }
  rewrite Hsql. unfold run_statements.
  rewrite decide_False.
  2:{ intros (rows' & Hrows' & Hin)%Hready.
      rewrite Hrows in Hrows'. by injection Hrows' as <-. }
  eexists. split; [reflexivity|]. split; [done|]. cbn.
  intros name [Hin|Hin%list_elem_of_singleton]%elem_of_app.
  - apply Hready in Hin as (rows' & Hrows' & Hin).
    rewrite Hrows in Hrows'. injection Hrows' as <-.
    exists ({[k]} ∪ rows). split; [done|]. set_solver.
  - cbv in Hin. injection Hin as ->.
    exists ({[k]} ∪ rows). split; [done|]. set_solver.
Qed.

(** The operator answers [y] and the four tables of the diamond are
    created, each by a script that fails on a table that is already
    there. *)
Lemma diamond_apply_all :
  ∃ self',
    apply_all run_statements 5 diamond ["y"; "n"]
    = Some ((self', ["n"]), Returned ())
    ∧ applied_revisions self'
      = applied_revisions diamond ∪ dom (load_revisions diamond)
    ∧ cache_coherent self'
    ∧ (∀ name, "CREATE TABLE " ++ name
               ∈ user_tables (committed (psql_engine self')) →
               ∃ rows, tracking (committed (psql_engine self')) = Some rows
                       ∧ name ∈ rows)
    ∧ migrations self' = migrations diamond.
Proof.
  apply (apply_all_applies_every_revision run_statements
           (λ contents : Contents (list string),
              ∀ name, "CREATE TABLE " ++ name ∈ user_tables contents →
                      ∃ rows, tracking contents = Some rows ∧ name ∈ rows)
           5 diamond "y" ["n"] _ diamond_layers).
  - vm_compute. reflexivity.
  - reflexivity.
  - reflexivity.
  - vm_compute. reflexivity.
  - intros name Hin. cbn in Hin. by apply elem_of_nil in Hin.
  - intros k r contents rows Hr Hready Hrows Hk _.
    exact (diamond_scripts_pass k r contents rows Hr Hready Hrows Hk).
Defined.

End MoreExamples.
